(** * ChaCha stream cipher (package chacha, chacha.go)

    A shallow embedding of the Go package: the [Cipher] struct, the
    constructor [New], the block function [next], and the three public
    methods [Seek], [Read] and [XORKeyStream], followed by the properties
    established about them.

    Conventions.
    - A [uint32] is a [Z] in [0, 2^32); a [uint64] a [Z] in [0, 2^64); a
      [byte] a [Z] in [0, 256).  Wrap-around of [+] and [<<] is written out
      with [mod]; conversions [uint32(x)], [byte(x)] are [mod] as well.
    - Go's [int] (the fields [nextByte], [rounds], slice indices) is a [Z];
      none of the arithmetic performed on it by this package can overflow.
    - Fixed arrays ([input], [output]) and slices are lists, indexed with
      stdpp's lookup and updated with stdpp's insert.
    - A run-time panic is an explicit outcome. *)

From Stdlib Require Import ZArith List Lia Bool.
From stdpp Require Import base list.
From Equations Require Import Equations.
Import ListNotations.
Local Open Scope Z_scope.

(** ** Machine arithmetic *)

Module U32.

Definition modulus : Z := 2 ^ 32.

(** [uint32(x)]: truncation to 32 bits. *)
Definition wrap (x : Z) : Z := x mod modulus.

(** [x + y] on [uint32]. *)
Definition add (x y : Z) : Z := wrap (x + y).

(** [x ^ y] on [uint32]. *)
Definition xor (x y : Z) : Z := Z.lxor x y.

(** [x | y] on [uint32]. *)
Definition or (x y : Z) : Z := Z.lor x y.

(** [x << n] on [uint32]: the bits shifted past bit 31 are lost. *)
Definition shl (x n : Z) : Z := wrap (Z.shiftl x n).

(** [x >> n] on [uint32] (logical shift of an unsigned value). *)
Definition shr (x n : Z) : Z := Z.shiftr x n.

Definition in_range (x : Z) : Prop := 0 <= x < modulus.

End U32.

Declare Scope u32_scope.
Delimit Scope u32_scope with u32.
Infix "+!" := U32.add (at level 50, left associativity) : u32_scope.
Infix "^!" := U32.xor (at level 50, left associativity) : u32_scope.
Infix "|!" := U32.or (at level 50, left associativity) : u32_scope.
Infix "<<!" := U32.shl (at level 40, left associativity) : u32_scope.
Infix ">>!" := U32.shr (at level 40, left associativity) : u32_scope.
Local Open Scope u32_scope.

(** [byte(x)]: truncation to 8 bits. *)
Definition to_byte (x : Z) : Z := x mod 256.

Definition is_byte (x : Z) : Prop := 0 <= x < 256.

(** [uint64] wrap-around. *)
Definition wrap64 (x : Z) : Z := x mod 2 ^ 64.

(** ** Errors and panics *)

(** The two error values the package hands out: the one [next] creates
    with [errors.New("exhausted keystream")], and [io.EOF]. *)
Inductive error : Type :=
| ErrExhaustedKeystream
| EOF.

(** What a panic carries: a run-time error of the Go runtime (an index or a
    slice bound out of range, with the offending index and the length), or
    the error value given to [panic(err)]. *)
Inductive panic : Type :=
| IndexOutOfRange (index len : Z)
| SliceBoundsOutOfRange (index len : Z)
| PanicError (err : error).

(** Outcome of a call: a normal return or a panic. *)
Inductive outcome (A : Type) : Type :=
| Done (a : A)
| Panicked (p : panic).
Arguments Done {A} a.
Arguments Panicked {A} p.

(** Sequencing: a panic unwinds through the rest of the computation. *)
#[global] Instance outcome_bind : MBind outcome := fun A B k m =>
  match m with
  | Done a => k a
  | Panicked p => Panicked p
  end.

#[global] Instance outcome_ret : MRet outcome := fun A a => Done a.

(** ** Slices and [encoding/binary] *)

(** [s[i:]]: panics when [i > len(s)]. *)
Definition slice_from (s : list Z) (i : Z) : outcome (list Z) :=
  if (0 <=? i) && (i <=? Z.of_nat (length s))
  then Done (drop (Z.to_nat i) s)
  else Panicked (SliceBoundsOutOfRange i (Z.of_nat (length s))).

(** [s[i]] for reading: panics when [i] is not below [len(s)]. *)
Definition index (s : list Z) (i : Z) : outcome Z :=
  if 0 <=? i then
    match s !! Z.to_nat i with
    | Some x => Done x
    | None => Panicked (IndexOutOfRange i (Z.of_nat (length s)))
    end
  else Panicked (IndexOutOfRange i (Z.of_nat (length s))).

(** [binary.LittleEndian.Uint32(b)]: the library first evaluates [b[3]]
    as a bounds check, then assembles the four bytes. *)
Definition Uint32 (b : list Z) : outcome Z :=
  _ ← index b 3;
  b0 ← index b 0;
  b1 ← index b 1;
  b2 ← index b 2;
  b3 ← index b 3;
  Done (b0 |! (b1 <<! 8) |! (b2 <<! 16) |! (b3 <<! 24)).

(** [binary.LittleEndian.PutUint32(out[off:], v)] for the fixed 64-byte
    array [out] and a constant [off <= 60]: the four stores land at
    [off .. off+3] of the array the slice aliases, and the bounds check
    cannot fail. *)
Definition PutUint32 (out : list Z) (off : nat) (v : Z) : list Z :=
  let out := <[off := to_byte v]> out in
  let out := <[(off + 1)%nat := to_byte (v >>! 8)]> out in
  let out := <[(off + 2)%nat := to_byte (v >>! 16)]> out in
  let out := <[(off + 3)%nat := to_byte (v >>! 24)]> out in
  out.

(** ** The cipher *)

Record Cipher : Type := mkCipher {
  input : list Z;      (* [16]uint32 *)
  output : list Z;     (* [64]byte *)
  nextByte : Z;        (* int *)
  rounds : Z;          (* int *)
  eof : bool
}.

(** [len(c.output)] *)
Definition output_len : Z := 64.

(** [new(Cipher)]: every field zeroed. *)
Definition zero_Cipher : Cipher :=
  {| input := replicate 16 0;
     output := replicate 64 0;
     nextByte := 0;
     rounds := 0;
     eof := false |}.

Definition set_input (c : Cipher) (i : nat) (v : Z) : Cipher :=
  {| input := <[i := v]> (input c);
     output := output c;
     nextByte := nextByte c;
     rounds := rounds c;
     eof := eof c |}.

Definition set_nextByte (c : Cipher) (v : Z) : Cipher :=
  {| input := input c;
     output := output c;
     nextByte := v;
     rounds := rounds c;
     eof := eof c |}.

Definition set_rounds (c : Cipher) (v : Z) : Cipher :=
  {| input := input c;
     output := output c;
     nextByte := nextByte c;
     rounds := v;
     eof := eof c |}.

Definition set_eof (c : Cipher) (v : bool) : Cipher :=
  {| input := input c;
     output := output c;
     nextByte := nextByte c;
     rounds := rounds c;
     eof := v |}.

Definition set_output (c : Cipher) (v : list Z) : Cipher :=
  {| input := input c;
     output := v;
     nextByte := nextByte c;
     rounds := rounds c;
     eof := eof c |}.

(** [New(key, iv, rounds)].  The ten [Uint32] reads happen in source
    order, so the first slice too short decides the panic. *)
Definition New (key iv : list Z) (rounds : Z) : outcome Cipher :=
  let c := zero_Cipher in
  let c := set_input c 0 0x61707865 in
  let c := set_input c 1 0x3320646e in
  let c := set_input c 2 0x79622d32 in
  let c := set_input c 3 0x6b206574 in
  k0 ← (s ← slice_from key 0; Uint32 s);
  let c := set_input c 4 k0 in
  k1 ← (s ← slice_from key 4; Uint32 s);
  let c := set_input c 5 k1 in
  k2 ← (s ← slice_from key 8; Uint32 s);
  let c := set_input c 6 k2 in
  k3 ← (s ← slice_from key 12; Uint32 s);
  let c := set_input c 7 k3 in
  k4 ← (s ← slice_from key 16; Uint32 s);
  let c := set_input c 8 k4 in
  k5 ← (s ← slice_from key 20; Uint32 s);
  let c := set_input c 9 k5 in
  k6 ← (s ← slice_from key 24; Uint32 s);
  let c := set_input c 10 k6 in
  k7 ← (s ← slice_from key 28; Uint32 s);
  let c := set_input c 11 k7 in
  n0 ← (s ← slice_from iv 0; Uint32 s);
  let c := set_input c 14 n0 in
  n1 ← (s ← slice_from iv 4; Uint32 s);
  let c := set_input c 15 n1 in
  let c := set_rounds c rounds in
  let c := set_nextByte c output_len in
  Done c.

(** ** The block function *)

(** The sixteen local variables of [next]. *)
Inductive vars : Type :=
| Vars (a b c1 d e f g h i j k l m n o p : Z).

(** One pass through the body of the [for] loop of [next], statement by
    statement. *)
Definition rounds_body (v : vars) : vars :=
  let '(Vars a b c1 d e f g h i j k l m n o p) := v in
  let a := a +! e in
  let t := m ^! a in
  let m := (t <<! 16) |! (t >>! (32 - 16)) in
  let i := i +! m in
  let t := e ^! i in
  let e := (t <<! 12) |! (t >>! (32 - 12)) in
  let a := a +! e in
  let t := m ^! a in
  let m := (t <<! 8) |! (t >>! (32 - 8)) in
  let i := i +! m in
  let t := e ^! i in
  let e := (t <<! 7) |! (t >>! (32 - 7)) in

  let b := b +! f in
  let t := n ^! b in
  let n := (t <<! 16) |! (t >>! (32 - 16)) in
  let j := j +! n in
  let t := f ^! j in
  let f := (t <<! 12) |! (t >>! (32 - 12)) in
  let b := b +! f in
  let t := n ^! b in
  let n := (t <<! 8) |! (t >>! (32 - 8)) in
  let j := j +! n in
  let t := f ^! j in
  let f := (t <<! 7) |! (t >>! (32 - 7)) in

  let c1 := c1 +! g in
  let t := o ^! c1 in
  let o := (t <<! 16) |! (t >>! (32 - 16)) in
  let k := k +! o in
  let t := g ^! k in
  let g := (t <<! 12) |! (t >>! (32 - 12)) in
  let c1 := c1 +! g in
  let t := o ^! c1 in
  let o := (t <<! 8) |! (t >>! (32 - 8)) in
  let k := k +! o in
  let t := g ^! k in
  let g := (t <<! 7) |! (t >>! (32 - 7)) in

  let d := d +! h in
  let t := p ^! d in
  let p := (t <<! 16) |! (t >>! (32 - 16)) in
  let l := l +! p in
  let t := h ^! l in
  let h := (t <<! 12) |! (t >>! (32 - 12)) in
  let d := d +! h in
  let t := p ^! d in
  let p := (t <<! 8) |! (t >>! (32 - 8)) in
  let l := l +! p in
  let t := h ^! l in
  let h := (t <<! 7) |! (t >>! (32 - 7)) in

  let a := a +! f in
  let t := p ^! a in
  let p := (t <<! 16) |! (t >>! (32 - 16)) in
  let k := k +! p in
  let t := f ^! k in
  let f := (t <<! 12) |! (t >>! (32 - 12)) in
  let a := a +! f in
  let t := p ^! a in
  let p := (t <<! 8) |! (t >>! (32 - 8)) in
  let k := k +! p in
  let t := f ^! k in
  let f := (t <<! 7) |! (t >>! (32 - 7)) in

  let b := b +! g in
  let t := m ^! b in
  let m := (t <<! 16) |! (t >>! (32 - 16)) in
  let l := l +! m in
  let t := g ^! l in
  let g := (t <<! 12) |! (t >>! (32 - 12)) in
  let b := b +! g in
  let t := m ^! b in
  let m := (t <<! 8) |! (t >>! (32 - 8)) in
  let l := l +! m in
  let t := g ^! l in
  let g := (t <<! 7) |! (t >>! (32 - 7)) in

  let c1 := c1 +! h in
  let t := n ^! c1 in
  let n := (t <<! 16) |! (t >>! (32 - 16)) in
  let i := i +! n in
  let t := h ^! i in
  let h := (t <<! 12) |! (t >>! (32 - 12)) in
  let c1 := c1 +! h in
  let t := n ^! c1 in
  let n := (t <<! 8) |! (t >>! (32 - 8)) in
  let i := i +! n in
  let t := h ^! i in
  let h := (t <<! 7) |! (t >>! (32 - 7)) in

  let d := d +! e in
  let t := o ^! d in
  let o := (t <<! 16) |! (t >>! (32 - 16)) in
  let j := j +! o in
  let t := e ^! j in
  let e := (t <<! 12) |! (t >>! (32 - 12)) in
  let d := d +! e in
  let t := o ^! d in
  let o := (t <<! 8) |! (t >>! (32 - 8)) in
  let j := j +! o in
  let t := e ^! j in
  let e := (t <<! 7) |! (t >>! (32 - 7)) in
  Vars a b c1 d e f g h i j k l m n o p.

(** [for z := c.rounds; z > 0; z -= 2 { body }].  The counter strictly
    decreases while positive, which is the termination measure. *)
Equations? rounds_loop (z : Z) (v : vars) : vars by wf (Z.to_nat z) lt :=
  rounds_loop z v with Z_gt_dec z 0 => {
    | left _ := rounds_loop (z - 2) (rounds_body v);
    | right _ := v }.
Proof. lia. Qed.


(** [next]: fills [output] with the next block and resets [nextByte].
    The result pairs the cipher after the call with the returned error
    ([None] is Go's [nil]). *)
Definition next (c : Cipher) : Cipher * option error :=
  if eof c then (c, Some ErrExhaustedKeystream)
  else
    let a := input c !!! 0%nat in
    let b := input c !!! 1%nat in
    let c1 := input c !!! 2%nat in
    let d := input c !!! 3%nat in
    let e := input c !!! 4%nat in
    let f := input c !!! 5%nat in
    let g := input c !!! 6%nat in
    let h := input c !!! 7%nat in
    let i := input c !!! 8%nat in
    let j := input c !!! 9%nat in
    let k := input c !!! 10%nat in
    let l := input c !!! 11%nat in
    let m := input c !!! 12%nat in
    let n := input c !!! 13%nat in
    let o := input c !!! 14%nat in
    let p := input c !!! 15%nat in
    let '(Vars a b c1 d e f g h i j k l m n o p) :=
      rounds_loop (rounds c) (Vars a b c1 d e f g h i j k l m n o p) in
    let out := output c in
    let a := a +! (input c !!! 0%nat) in
    let out := PutUint32 out (4 * 0) a in
    let b := b +! (input c !!! 1%nat) in
    let out := PutUint32 out (4 * 1) b in
    let c1 := c1 +! (input c !!! 2%nat) in
    let out := PutUint32 out (4 * 2) c1 in
    let d := d +! (input c !!! 3%nat) in
    let out := PutUint32 out (4 * 3) d in
    let e := e +! (input c !!! 4%nat) in
    let out := PutUint32 out (4 * 4) e in
    let f := f +! (input c !!! 5%nat) in
    let out := PutUint32 out (4 * 5) f in
    let g := g +! (input c !!! 6%nat) in
    let out := PutUint32 out (4 * 6) g in
    let h := h +! (input c !!! 7%nat) in
    let out := PutUint32 out (4 * 7) h in
    let i := i +! (input c !!! 8%nat) in
    let out := PutUint32 out (4 * 8) i in
    let j := j +! (input c !!! 9%nat) in
    let out := PutUint32 out (4 * 9) j in
    let k := k +! (input c !!! 10%nat) in
    let out := PutUint32 out (4 * 10) k in
    let l := l +! (input c !!! 11%nat) in
    let out := PutUint32 out (4 * 11) l in
    let m := m +! (input c !!! 12%nat) in
    let out := PutUint32 out (4 * 12) m in
    let n := n +! (input c !!! 13%nat) in
    let out := PutUint32 out (4 * 13) n in
    let o := o +! (input c !!! 14%nat) in
    let out := PutUint32 out (4 * 14) o in
    let p := p +! (input c !!! 15%nat) in
    let out := PutUint32 out (4 * 15) p in
    (* Update block counter *)
    let ctr :=
      wrap64 (Z.lor (wrap64 (Z.shiftl (input c !!! 13%nat) 32)) (input c !!! 12%nat) + 1) in
    let eof' := if ctr =? 0 then true else eof c in
    let inp := <[12%nat := U32.wrap ctr]> (input c) in
    let inp := <[13%nat := U32.wrap (Z.shiftr ctr 32)]> inp in
    ({| input := inp; output := out; nextByte := 0; rounds := rounds c; eof := eof' |},
     None).

(** [Seek(n)], [n] a [uint64]. *)
Definition Seek (c : Cipher) (n : Z) : Cipher :=
  let c := set_input c 12 (U32.wrap n) in
  let c := set_input c 13 (U32.wrap (Z.shiftr n 32)) in
  let c := set_eof c false in
  fst (next c).

(** The guard that opens the loop body of both [Read] and [XORKeyStream]:
    [if c.nextByte >= len(c.output) { err := c.next() ... }].  It yields
    the cipher and the error [next] returned, [None] when [next] was not
    called or returned [nil]. *)
Definition refill (c : Cipher) : Cipher * option error :=
  if nextByte c >=? output_len then next c else (c, None).

(** [Read(p)].  The loop [for ; n < len(p); n++] is unrolled on the
    number [todo = len(p) - n] of iterations still to run.  The result is
    the cipher and the buffer after the call, and what was returned: the
    pair [(n, err)], or a panic. *)
Fixpoint Read_loop (todo : nat) (c : Cipher) (p : list Z) (n : nat)
  : Cipher * list Z * outcome (Z * option error) :=
  match todo with
  | O => (c, p, Done (Z.of_nat n, None))
  | S todo =>
    let '(c, err) := refill c in
    match err with
    | Some _ => (c, p, Done (Z.of_nat n, Some EOF))
    | None =>
      match index (output c) (nextByte c) with
      | Panicked e => (c, p, Panicked e)
      | Done x =>
        let p := <[n := x]> p in
        let c := set_nextByte c (nextByte c + 1) in
        Read_loop todo c p (S n)
      end
    end
  end.

Definition Read (c : Cipher) (p : list Z) : Cipher * list Z * outcome (Z * option error) :=
  Read_loop (length p) c p 0.

(** [XORKeyStream(dst, src)].  The loop [for i := 0; i < len(dst); i++]
    is unrolled like that of [Read].  In [dst[i] = src[i] ^ c.output[c.nextByte]]
    the operand [src[i]] is evaluated first.  [dst] and [src] are taken as
    separate buffers (or as the very same one, which reads [src[i]] before
    it stores [dst[i]] and so behaves alike). *)
Fixpoint XORKeyStream_loop (todo : nat) (c : Cipher) (dst src : list Z) (i : nat)
  : Cipher * list Z * outcome unit :=
  match todo with
  | O => (c, dst, Done tt)
  | S todo =>
    let '(c, err) := refill c in
    match err with
    | Some err => (c, dst, Panicked (PanicError err))
    | None =>
      match index src (Z.of_nat i) with
      | Panicked e => (c, dst, Panicked e)
      | Done s =>
        match index (output c) (nextByte c) with
        | Panicked e => (c, dst, Panicked e)
        | Done x =>
          let dst := <[i := Z.lxor s x]> dst in
          let c := set_nextByte c (nextByte c + 1) in
          XORKeyStream_loop todo c dst src (S i)
        end
      end
    end
  end.

Definition XORKeyStream (c : Cipher) (dst src : list Z) : Cipher * list Z * outcome unit :=
  XORKeyStream_loop (length dst) c dst src 0.

(** ** Reference test vector *)

(** First keystream block of ChaCha20 for the all-zero key and nonce
    (block counter 0), as published with the reference implementation and
    reproduced in RFC 7539, appendix A.1, test vector 1. *)
Definition chacha20_zero_block : list Z :=
  [ 0x76; 0xb8; 0xe0; 0xad; 0xa0; 0xf1; 0x3d; 0x90;
    0x40; 0x5d; 0x6a; 0xe5; 0x53; 0x86; 0xbd; 0x28;
    0xbd; 0xd2; 0x19; 0xb8; 0xa0; 0x8d; 0xed; 0x1a;
    0xa8; 0x36; 0xef; 0xcc; 0x8b; 0x77; 0x0d; 0xc7;
    0xda; 0x41; 0x59; 0x7c; 0x51; 0x57; 0x48; 0x8d;
    0x77; 0x24; 0xe0; 0x3f; 0xb8; 0xd8; 0x4a; 0x37;
    0x6a; 0x43; 0xb8; 0xf4; 0x15; 0x18; 0xa1; 0x1c;
    0xc3; 0x87; 0xb6; 0x69; 0xb2; 0xee; 0x65; 0x86 ].


(** ** Derived notions used to state the properties *)

(** Representation invariants of the struct: the array lengths, the range
    of the [uint32] words, and the range of the cursor. *)
Definition words_ok (c : Cipher) : Prop :=
  length (input c) = 16%nat /\ Forall U32.in_range (input c).

Definition buffer_ok (c : Cipher) : Prop :=
  length (output c) = 64%nat.

Definition cursor_ok (c : Cipher) : Prop :=
  0 <= nextByte c <= output_len.

Definition wf (c : Cipher) : Prop :=
  words_ok c /\ buffer_ok c /\ cursor_ok c.

(** The little-endian word [Uint32] reads at offset [off] of a slice long
    enough, and the cipher [New] returns when it returns. *)
Definition le32 (s : list Z) (off : nat) : Z :=
  (s !!! off) |! ((s !!! (off + 1)%nat) <<! 8) |! ((s !!! (off + 2)%nat) <<! 16)
  |! ((s !!! (off + 3)%nat) <<! 24).

Definition initial (key iv : list Z) (rounds : Z) : Cipher :=
  {| input := [0x61707865; 0x3320646e; 0x79622d32; 0x6b206574;
               le32 key 0; le32 key 4; le32 key 8; le32 key 12;
               le32 key 16; le32 key 20; le32 key 24; le32 key 28;
               0; 0; le32 iv 0; le32 iv 4];
     output := replicate 64 0;
     nextByte := 64;
     rounds := rounds;
     eof := false |}.

(** The all-zero key and nonce of the reference test vectors. *)
Definition zero_key : list Z := replicate 32 0.
Definition zero_iv : list Z := replicate 8 0.

(** A cipher about to generate the last block: both counter words are
    [0xffffffff]. *)
Definition last_block_cipher : Cipher :=
  set_input (set_input (initial zero_key zero_iv 20) 12 0xffffffff) 13 0xffffffff.

(** A cipher whose keystream is exhausted and whose buffer is used up. *)
Definition exhausted_cipher : Cipher :=
  set_eof (initial zero_key zero_iv 20) true.

(** Two ciphers of one key, nonce and round count: they agree on
    everything but the counter words, the buffer contents, the cursor and
    the exhausted flag. *)
Definition same_key (c0 c : Cipher) : Prop :=
  rounds c = rounds c0
  /\ length (output c) = 64%nat
  /\ length (input c) = 16%nat
  /\ forall i : nat, i <> 12%nat -> i <> 13%nat -> input c !! i = input c0 !! i.

(** The 64-bit block counter [(words[13] << 32 | words[12])]. *)
Definition counter (c : Cipher) : Z :=
  Z.lor (Z.shiftl (input c !!! 13%nat) 32) (input c !!! 12%nat).

Definition max_uint64 : Z := 2 ^ 64 - 1.

(** The state words with the counter set to [n], as [Seek] sets them. *)
Definition seek_words (inp : list Z) (n : Z) : list Z :=
  <[13%nat := U32.wrap (Z.shiftr n 32)]> (<[12%nat := U32.wrap n]> inp).

(** The keystream bytes a cipher can still deliver: those left in the
    buffer, and 64 for each block [next] can still generate before the
    counter wraps. *)
Definition remaining (c : Cipher) : Z :=
  (output_len - nextByte c) + 64 * (if eof c then 0 else 2 ^ 64 - counter c).

(** The local variables of [next] as loaded from, and listed like, the
    sixteen state words. *)
Definition load (inp : list Z) : vars :=
  Vars (inp !!! 0%nat) (inp !!! 1%nat) (inp !!! 2%nat) (inp !!! 3%nat)
       (inp !!! 4%nat) (inp !!! 5%nat) (inp !!! 6%nat) (inp !!! 7%nat)
       (inp !!! 8%nat) (inp !!! 9%nat) (inp !!! 10%nat) (inp !!! 11%nat)
       (inp !!! 12%nat) (inp !!! 13%nat) (inp !!! 14%nat) (inp !!! 15%nat).

Definition vars_list (v : vars) : list Z :=
  let '(Vars a b c1 d e f g h i j k l m n o p) := v in
  [a; b; c1; d; e; f; g; h; i; j; k; l; m; n; o; p].

(** The four bytes [PutUint32] stores for a word. *)
Definition le_bytes (w : Z) : list Z :=
  [to_byte w; to_byte (w >>! 8); to_byte (w >>! 16); to_byte (w >>! 24)].

(** The block [next] writes to [output], as a function of the state words
    and the round count: the loop, the additions of [c.input[i]], and the
    sixteen stores. *)
Definition block (inp : list Z) (r : Z) : list Z :=
  mjoin (le_bytes <$> zip_with U32.add (vars_list (rounds_loop r (load inp))) inp).

(** The counter update at the end of [next]. *)
Definition next_ctr (inp : list Z) : Z :=
  wrap64 (Z.lor (wrap64 (Z.shiftl (inp !!! 13%nat) 32)) (inp !!! 12%nat) + 1).

Definition bump (inp : list Z) : list Z :=
  <[13%nat := U32.wrap (Z.shiftr (next_ctr inp) 32)]>
    (<[12%nat := U32.wrap (next_ctr inp)]> inp).

(** A quarter round on four of the local variables, in the shape the loop
    body spells it out eight times. *)
Definition quarter (a b c d : Z) : Z * Z * Z * Z :=
  let a := a +! b in
  let t := d ^! a in
  let d := (t <<! 16) |! (t >>! (32 - 16)) in
  let c := c +! d in
  let t := b ^! c in
  let b := (t <<! 12) |! (t >>! (32 - 12)) in
  let a := a +! b in
  let t := d ^! a in
  let d := (t <<! 8) |! (t >>! (32 - 8)) in
  let c := c +! d in
  let t := b ^! c in
  let b := (t <<! 7) |! (t >>! (32 - 7)) in
  (a, b, c, d).

Definition in_range4 (q : Z * Z * Z * Z) : Prop :=
  let '(a, b, c, d) := q in
  U32.in_range a /\ U32.in_range b /\ U32.in_range c /\ U32.in_range d.

(** The number of passes through the loop of [next] for a round count
    [z]: [(z + 1) / 2] for a positive [z], none otherwise. *)
Definition passes (z : Z) : nat := Z.to_nat ((z + 1) / 2).

(** The keystream as [Read] and [XORKeyStream] consume it: the bytes the
    next [k] passes through their common loop body serve, the cipher left
    behind, and whether the passes were cut short by an exhausted
    keystream. *)
Fixpoint stream (k : nat) (c : Cipher) : list Z * Cipher * bool :=
  match k with
  | O => ([], c, false)
  | S k =>
    let '(c, err) := refill c in
    match err with
    | Some _ => ([], c, true)
    | None =>
      let x := output c !!! Z.to_nat (nextByte c) in
      let '(ks, c, ex) := stream k (set_nextByte c (nextByte c + 1)) in
      (x :: ks, c, ex)
    end
  end.

(** Histories of calls on one cipher, and what the caller observes of
    each: the buffer as the call left it and what the call returned. *)
Inductive call : Type :=
| CallRead (p : list Z)
| CallXORKeyStream (dst src : list Z)
| CallSeek (n : Z).

Inductive observation : Type :=
| SawRead (p : list Z) (r : outcome (Z * option error))
| SawXORKeyStream (dst : list Z) (r : outcome unit)
| SawSeek.

Definition perform (c : Cipher) (k : call) : Cipher * observation :=
  match k with
  | CallRead p =>
    let '(c, p, r) := Read c p in (c, SawRead p r)
  | CallXORKeyStream dst src =>
    let '(c, dst, r) := XORKeyStream c dst src in (c, SawXORKeyStream dst r)
  | CallSeek n => (Seek c n, SawSeek)
  end.

Fixpoint run (c : Cipher) (ks : list call) : Cipher * list observation :=
  match ks with
  | [] => (c, [])
  | k :: ks =>
    let '(c, o) := perform c k in
    let '(c, os) := run c ks in
    (c, o :: os)
  end.

(** ** The reference algorithm

    The block transform as the design document words it: an array of
    sixteen words, quarter rounds addressed by index, column and diagonal
    rounds, feed-forward, little-endian serialization.  Nothing here is
    taken from [next]. *)
Module Ref.

Definition add (x y : Z) : Z := (x + y) mod 2 ^ 32.

(** Rotation of a 32-bit word to the left by [n] bits: the low [32 - n]
    bits move up, the high [n] bits come back in at the bottom. *)
Definition rotate_left (x n : Z) : Z :=
  (x mod 2 ^ (32 - n)) * 2 ^ n + x / 2 ^ (32 - n).

Definition get (x : list Z) (i : nat) : Z := x !!! i.
Definition set (x : list Z) (i : nat) (v : Z) : list Z := <[i := v]> x.

(** The quarter round over four working words. *)
Definition quarter (a b c d : Z) : Z * Z * Z * Z :=
  let a := add a b in let d := Z.lxor d a in let d := rotate_left d 16 in
  let c := add c d in let b := Z.lxor b c in let b := rotate_left b 12 in
  let a := add a b in let d := Z.lxor d a in let d := rotate_left d 8 in
  let c := add c d in let b := Z.lxor b c in let b := rotate_left b 7 in
  (a, b, c, d).

(** The quarter round applied to the words at four positions of the
    array. *)
Definition quarter_round (ia ib ic id : nat) (x : list Z) : list Z :=
  let '(a, b, c, d) := quarter (get x ia) (get x ib) (get x ic) (get x id) in
  set (set (set (set x ia a) ib b) ic c) id d.

Definition column_round (x : list Z) : list Z :=
  let x := quarter_round 0 4 8 12 x in
  let x := quarter_round 1 5 9 13 x in
  let x := quarter_round 2 6 10 14 x in
  quarter_round 3 7 11 15 x.

Definition diagonal_round (x : list Z) : list Z :=
  let x := quarter_round 0 5 10 15 x in
  let x := quarter_round 1 6 11 12 x in
  let x := quarter_round 2 7 8 13 x in
  quarter_round 3 4 9 14 x.

Definition double_round (x : list Z) : list Z :=
  diagonal_round (column_round x).

(** [r / 2] double rounds. *)
Definition permute (r : Z) (x : list Z) : list Z :=
  Nat.iter (Z.to_nat (r / 2)) double_round x.

Definition feed_forward (state x : list Z) : list Z :=
  zip_with add x state.

(** Word [i] at byte offset [4 * i], least significant byte first. *)
Definition serialize (ws : list Z) : list Z :=
  w ← ws; [w mod 256; (w / 2 ^ 8) mod 256; (w / 2 ^ 16) mod 256; (w / 2 ^ 24) mod 256].

Definition block (state : list Z) (r : Z) : list Z :=
  serialize (feed_forward state (permute r state)).

End Ref.

(** * Properties *)

(** ** Shape of [next] *)

Lemma length_16 {A} (l : list A) :
  length l = 16%nat ->
  exists x0 x1 x2 x3 x4 x5 x6 x7 x8 x9 x10 x11 x12 x13 x14 x15,
    l = [x0; x1; x2; x3; x4; x5; x6; x7; x8; x9; x10; x11; x12; x13; x14; x15].
Proof.
  intros H.
  do 16 (destruct l as [|? l]; [discriminate H|]).
  destruct l; [|discriminate H].
  repeat eexists.
Qed.

Lemma length_split {A} (n m : nat) (l : list A) :
  length l = (n + m)%nat ->
  exists l1 l2, l = l1 ++ l2 /\ length l1 = n /\ length l2 = m.
Proof.
  intros H. exists (take n l), (drop n l).
  rewrite take_drop, length_take, length_drop. repeat split; lia.
Qed.

Lemma length_64 {A} (l : list A) :
  length l = 64%nat ->
  exists l0 l1 l2 l3,
    l = l0 ++ l1 ++ l2 ++ l3 /\
    length l0 = 16%nat /\ length l1 = 16%nat /\ length l2 = 16%nat /\ length l3 = 16%nat.
Proof.
  intros H.
  destruct (length_split 16 48 l H) as (l0 & r0 & -> & H0 & Hr0).
  destruct (length_split 16 32 r0 Hr0) as (l1 & r1 & -> & H1 & Hr1).
  destruct (length_split 16 16 r1 Hr1) as (l2 & l3 & -> & H2 & H3).
  exists l0, l1, l2, l3. auto.
Qed.

Lemma next_shape (c : Cipher) :
  eof c = false ->
  length (input c) = 16%nat ->
  length (output c) = 64%nat ->
  next c =
    ({| input := bump (input c);
        output := block (input c) (rounds c);
        nextByte := 0;
        rounds := rounds c;
        eof := (if next_ctr (input c) =? 0 then true else false) |},
     None).
Proof.
  intros He Hi Ho.
  destruct c as [inp out nb r e]; simpl in *. subst e.
  destruct (length_16 _ Hi) as (x0&x1&x2&x3&x4&x5&x6&x7&x8&x9&x10&x11&x12&x13&x14&x15&->).
  destruct (length_64 _ Ho) as (l0&l1&l2&l3&->&H0&H1&H2&H3).
  destruct (length_16 _ H0) as (?&?&?&?&?&?&?&?&?&?&?&?&?&?&?&?&->).
  destruct (length_16 _ H1) as (?&?&?&?&?&?&?&?&?&?&?&?&?&?&?&?&->).
  destruct (length_16 _ H2) as (?&?&?&?&?&?&?&?&?&?&?&?&?&?&?&?&->).
  destruct (length_16 _ H3) as (?&?&?&?&?&?&?&?&?&?&?&?&?&?&?&?&->).
  unfold next, block, bump, next_ctr, load. cbn [eof input output rounds].
  destruct (rounds_loop _ _) as [a b c1 d e f g h i j k l m n o p].
  reflexivity.
Qed.

(** ** Machine arithmetic *)

Section Arith.

Lemma pow2_32 : U32.modulus = 4294967296.
Proof. reflexivity. Qed.

Lemma wrap_in_range (x : Z) : U32.in_range (U32.wrap x).
Proof. unfold U32.in_range, U32.wrap. rewrite pow2_32. apply Z.mod_pos_bound. lia. Qed.

Lemma wrap_small (x : Z) : U32.in_range x -> U32.wrap x = x.
Proof. unfold U32.in_range, U32.wrap. intros H. apply Z.mod_small, H. Qed.

Lemma add_in_range (x y : Z) : U32.in_range (x +! y).
Proof. apply wrap_in_range. Qed.

Lemma small_bits (y n i : Z) : 0 <= y < 2 ^ n -> n <= i -> Z.testbit y i = false.
Proof.
  intros [Hy0 Hy] Hi.
  destruct (Z.eq_dec y 0) as [->|Hne]; [apply Z.bits_0|].
  apply Z.bits_above_log2; [exact Hy0|].
  assert (Z.log2 y < n) by (apply Z.log2_lt_pow2; lia). lia.
Qed.

Lemma below_pow2 (y n : Z) :
  0 <= n -> 0 <= y -> (forall i, n <= i -> Z.testbit y i = false) -> y < 2 ^ n.
Proof.
  intros Hn Hy H.
  destruct (Z.eq_dec y 0) as [->|Hne]; [apply Z.pow_pos_nonneg; lia|].
  apply Z.log2_lt_pow2; [lia|].
  destruct (Z_lt_le_dec (Z.log2 y) n) as [Hlt|Hge]; [exact Hlt|].
  specialize (H _ Hge). rewrite Z.bit_log2 in H by lia. discriminate H.
Qed.

Lemma xor_in_range (x y : Z) :
  U32.in_range x -> U32.in_range y -> U32.in_range (x ^! y).
Proof.
  unfold U32.in_range, U32.xor, U32.modulus. intros Hx Hy.
  assert (H0 : 0 <= Z.lxor x y) by (apply Z.lxor_nonneg; lia).
  split; [exact H0|].
  apply below_pow2; [lia|exact H0|].
  intros i Hi. rewrite Z.lxor_spec.
  rewrite (small_bits x 32 i), (small_bits y 32 i) by (assumption || lia).
  reflexivity.
Qed.

Lemma lor_disjoint (u y n : Z) :
  0 <= n -> 0 <= y < 2 ^ n -> Z.lor (u * 2 ^ n) y = u * 2 ^ n + y.
Proof.
  intros Hn Hy.
  assert (Hl : Z.land (u * 2 ^ n) y = 0).
  { apply Z.bits_inj'. intros i Hi. rewrite Z.land_spec, Z.bits_0.
    destruct (Z_lt_le_dec i n) as [Hlt|Hge].
    - rewrite Z.mul_pow2_bits_low by lia. reflexivity.
    - rewrite (small_bits y n i) by lia. apply andb_false_r. }
  pose proof (Z.add_lor_land (u * 2 ^ n) y) as H. lia.
Qed.

(** The shift-and-or idiom of the loop body is a rotation to the left. *)
Lemma rotate_idiom (t n : Z) :
  U32.in_range t -> 0 < n < 32 ->
  (t <<! n) |! (t >>! (32 - n)) = Ref.rotate_left t n.
Proof.
  unfold U32.in_range, U32.shl, U32.shr, U32.or, U32.wrap, U32.modulus, Ref.rotate_left.
  intros Ht Hn.
  rewrite Z.shiftl_mul_pow2, Z.shiftr_div_pow2 by lia.
  replace (2 ^ 32) with (2 ^ (32 - n) * 2 ^ n)
    by (rewrite <- Z.pow_add_r by lia; f_equal; lia).
  rewrite Z.mul_mod_distr_r by (apply Z.pow_nonzero; lia).
  apply lor_disjoint; [lia|].
  split; [apply Z.div_pos; [lia|apply Z.pow_pos_nonneg; lia]|].
  apply Z.div_lt_upper_bound; [apply Z.pow_pos_nonneg; lia|].
  rewrite <- Z.pow_add_r by lia.
  replace (32 - n + n) with 32 by lia. lia.
Qed.

Lemma rotate_left_in_range (t n : Z) :
  U32.in_range t -> 0 < n < 32 -> U32.in_range (Ref.rotate_left t n).
Proof.
  unfold U32.in_range, U32.modulus, Ref.rotate_left. intros Ht Hn.
  assert (Hp : 0 < 2 ^ (32 - n)) by (apply Z.pow_pos_nonneg; lia).
  assert (Hq : 0 < 2 ^ n) by (apply Z.pow_pos_nonneg; lia).
  assert (Hpq : 2 ^ 32 = 2 ^ (32 - n) * 2 ^ n)
    by (rewrite <- Z.pow_add_r by lia; f_equal; lia).
  pose proof (Z.mod_pos_bound t (2 ^ (32 - n)) Hp) as Hm.
  assert (Hd : 0 <= t / 2 ^ (32 - n) < 2 ^ n).
  { split; [apply Z.div_pos; lia|].
    apply Z.div_lt_upper_bound; [lia|]. lia. }
  nia.
Qed.

(** The reference rotation moves bit [i] to position [(i + n) mod 32]. *)
Lemma rotate_left_bits (t n i : Z) :
  U32.in_range t -> 0 < n < 32 -> 0 <= i < 32 ->
  Z.testbit (Ref.rotate_left t n) ((i + n) mod 32) = Z.testbit t i.
Proof.
  intros Ht Hn Hi.
  rewrite <- rotate_idiom by assumption.
  unfold U32.in_range, U32.shl, U32.shr, U32.or, U32.wrap, U32.modulus in *.
  assert (Hm : 0 <= (i + n) mod 32 < 32) by (apply Z.mod_pos_bound; lia).
  rewrite Z.lor_spec, Z.mod_pow2_bits_low, Z.shiftl_spec, Z.shiftr_spec by lia.
  destruct (Z_lt_le_dec (i + n) 32) as [Hlt|Hge].
  - rewrite Z.mod_small by lia.
    replace (i + n - n) with i by lia.
    rewrite (small_bits t 32 (i + n + (32 - n))) by lia.
    apply orb_false_r.
  - replace ((i + n) mod 32) with (i + n - 32)
      by (apply Z.mod_unique with 1; lia).
    rewrite (Z.testbit_neg_r t (i + n - 32 - n)) by lia.
    replace (i + n - 32 + (32 - n)) with i by lia.
    reflexivity.
Qed.

Lemma le_bytes_serialize (ws : list Z) :
  mjoin (le_bytes <$> ws) = Ref.serialize ws.
Proof.
  unfold Ref.serialize.
  induction ws as [|w ws IH]; [reflexivity|].
  cbn [fmap list_fmap mjoin list_join mbind list_bind].
  f_equal; [|exact IH].
  unfold le_bytes, to_byte, U32.shr.
  rewrite !Z.shiftr_div_pow2 by lia. reflexivity.
Qed.

End Arith.

(** ** The loop of [next] *)

Section Rounds.

(** The loop body is eight quarter rounds: four on the columns, then
    four on the diagonals. *)
Lemma rounds_body_quarters (a b c1 d e f g h i j k l m n o p : Z) :
  rounds_body (Vars a b c1 d e f g h i j k l m n o p) =
    let '(a, e, i, m) := quarter a e i m in
    let '(b, f, j, n) := quarter b f j n in
    let '(c1, g, k, o) := quarter c1 g k o in
    let '(d, h, l, p) := quarter d h l p in
    let '(a, f, k, p) := quarter a f k p in
    let '(b, g, l, m) := quarter b g l m in
    let '(c1, h, i, n) := quarter c1 h i n in
    let '(d, e, j, o) := quarter d e j o in
    Vars a b c1 d e f g h i j k l m n o p.
Proof. reflexivity. Qed.

Lemma passes_nonpos (z : Z) : z <= 0 -> passes z = 0%nat.
Proof.
  intros Hz. unfold passes.
  assert ((z + 1) / 2 < 1); [|lia].
  apply Z.div_lt_upper_bound; lia.
Qed.

Lemma passes_step (z : Z) : 0 < z -> passes z = S (passes (z - 2)).
Proof.
  intros Hz. unfold passes.
  replace (z + 1) with (z - 2 + 1 + 1 * 2) by lia.
  rewrite Z.div_add by lia.
  assert (0 <= (z - 2 + 1) / 2) by (apply Z.div_pos; lia).
  lia.
Qed.

Lemma rounds_loop_iter (z : Z) (v : vars) :
  rounds_loop z v = Nat.iter (passes z) rounds_body v.
Proof.
  funelim (rounds_loop z v).
  - rewrite H, (passes_step z) by lia.
    symmetry. apply Nat.iter_succ_r.
  - rewrite passes_nonpos by lia. reflexivity.
Qed.

Lemma passes_even (r : Z) : 0 < r -> Z.even r = true -> passes r = Z.to_nat (r / 2).
Proof.
  intros Hr He. unfold passes. f_equal.
  apply Z.even_spec in He as [q ->].
  rewrite (Z.mul_comm 2 q), Z.div_mul by lia.
  replace (q * 2 + 1) with (1 + q * 2) by lia.
  rewrite Z.div_add by lia. reflexivity.
Qed.

Lemma passes_odd (r : Z) : 0 < r -> Z.odd r = true -> passes r = passes (r + 1).
Proof.
  intros Hr Ho. unfold passes. f_equal.
  apply Z.odd_spec in Ho as [q ->].
  replace (2 * q + 1 + 1 + 1) with (1 + (q + 1) * 2) by lia.
  replace (2 * q + 1 + 1) with (0 + (q + 1) * 2) by lia.
  rewrite !Z.div_add by lia. reflexivity.
Qed.

Lemma Ref_add_in_range (x y : Z) : U32.in_range (Ref.add x y).
Proof. exact (add_in_range x y). Qed.

Lemma idiom_in_range (t n : Z) :
  U32.in_range t -> 0 < n < 32 -> U32.in_range ((t <<! n) |! (t >>! (32 - n))).
Proof.
  intros Ht Hn. rewrite rotate_idiom by assumption.
  apply rotate_left_in_range; assumption.
Qed.

Ltac in_range :=
  repeat first [ assumption
               | apply add_in_range
               | apply Ref_add_in_range
               | apply xor_in_range
               | apply (xor_in_range _ _)
               | apply idiom_in_range; [|lia]
               | apply rotate_left_in_range; [|lia] ].

Lemma Ref_quarter_in_range (a b c d : Z) :
  in_range4 (a, b, c, d) -> in_range4 (Ref.quarter a b c d).
Proof.
  intros (Ha & Hb & Hc & Hd). unfold Ref.quarter, in_range4.
  repeat split; in_range.
Qed.

(** The quarter round of the loop body is the reference quarter round. *)
Lemma quarter_ref (a b c d : Z) :
  in_range4 (a, b, c, d) -> quarter a b c d = Ref.quarter a b c d.
Proof.
  intros (Ha & Hb & Hc & Hd). unfold quarter, Ref.quarter.
  cbv zeta.
  rewrite !rotate_idiom by (lia || in_range).
  reflexivity.
Qed.

Lemma quarter_round_eq (ia ib ic id : nat) (x : list Z) (a b c d : Z) :
  Ref.quarter (Ref.get x ia) (Ref.get x ib) (Ref.get x ic) (Ref.get x id)
  = (a, b, c, d) ->
  Ref.quarter_round ia ib ic id x
  = Ref.set (Ref.set (Ref.set (Ref.set x ia a) ib b) ic c) id d.
Proof. intros E. unfold Ref.quarter_round. rewrite E. reflexivity. Qed.

Lemma rounds_body_ref (v : vars) :
  Forall U32.in_range (vars_list v) ->
  vars_list (rounds_body v) = Ref.double_round (vars_list v)
  /\ Forall U32.in_range (vars_list (rounds_body v)).
Proof.
  destruct v as [a b c1 d e f g h i j k l m n o p]. intros H.
  cbn [vars_list] in H.
  repeat match type of H with
         | Forall _ (_ :: _) => apply Forall_cons in H as [? H]
         end.
  rewrite rounds_body_quarters.
  repeat match goal with
         | |- context [quarter ?w ?x ?y ?z] =>
           let Hr := fresh "Hr" in
           assert (Hr : in_range4 (w, x, y, z)) by (cbv [in_range4]; auto);
           rewrite (quarter_ref w x y z Hr);
           apply Ref_quarter_in_range in Hr;
           destruct (Ref.quarter w x y z) as [[[? ?] ?] ?] eqn:?;
           destruct Hr as (? & ? & ? & ?)
         end.
  split;
    [|cbn [vars_list];
      repeat (apply List.Forall_cons; [assumption|]); apply List.Forall_nil].
  cbv beta iota zeta delta [Ref.double_round Ref.diagonal_round Ref.column_round vars_list].
  repeat match goal with
         | E : Ref.quarter _ _ _ _ = (?qa, ?qb, ?qc, ?qd)
           |- context [Ref.quarter_round ?ia ?ib ?ic ?id (?x0 :: ?xs)] =>
           rewrite (quarter_round_eq ia ib ic id (x0 :: xs) qa qb qc qd E);
           cbv [Ref.set insert list_insert];
           clear E
         end.
  reflexivity.
Qed.

Lemma rounds_iter_ref (n : nat) (v : vars) :
  Forall U32.in_range (vars_list v) ->
  vars_list (Nat.iter n rounds_body v) = Nat.iter n Ref.double_round (vars_list v)
  /\ Forall U32.in_range (vars_list (Nat.iter n rounds_body v)).
Proof.
  intros Hv. induction n as [|n [IHe IHr]]; [split; [reflexivity|exact Hv]|].
  change (Nat.iter (S n) rounds_body v) with (rounds_body (Nat.iter n rounds_body v)).
  change (Nat.iter (S n) Ref.double_round (vars_list v))
    with (Ref.double_round (Nat.iter n Ref.double_round (vars_list v))).
  destruct (rounds_body_ref _ IHr) as [He Hr].
  split; [|exact Hr]. rewrite He, IHe. reflexivity.
Qed.

Lemma vars_list_load (inp : list Z) :
  length inp = 16%nat -> vars_list (load inp) = inp.
Proof.
  intros H.
  destruct (length_16 _ H) as (?&?&?&?&?&?&?&?&?&?&?&?&?&?&?&?&->).
  reflexivity.
Qed.

(** The block of an in-range state, for an even positive round count,
    is the reference block. *)
Lemma block_ref (inp : list Z) (r : Z) :
  length inp = 16%nat -> Forall U32.in_range inp ->
  0 < r -> Z.even r = true ->
  block inp r = Ref.block inp r.
Proof.
  intros Hl Hr Hpos Hev. unfold block, Ref.block, Ref.permute, Ref.feed_forward.
  rewrite le_bytes_serialize, rounds_loop_iter, passes_even by assumption.
  destruct (rounds_iter_ref (Z.to_nat (r / 2)) (load inp)) as [-> _];
    [rewrite vars_list_load; assumption|].
  rewrite vars_list_load by assumption. reflexivity.
Qed.

End Rounds.

(** C2.  For every cipher state (sixteen words in range, a 64-byte output
    buffer, not exhausted) and every even round count [r > 0], the block
    transform [next] is the reference algorithm: the flat-variable code
    leaves in [output] exactly the serialized, fed-forward result of
    [r / 2] double rounds (column round, then diagonal round, each of four
    quarter rounds) of the array-based reference definition, and returns
    no error. *)
Theorem next_refines_reference (c : Cipher) (r : Z) :
  words_ok c -> buffer_ok c -> eof c = false ->
  rounds c = r -> 0 < r -> Z.even r = true ->
  output (next c).1 = Ref.block (input c) r /\ (next c).2 = None.
Proof.
  intros [Hl Hr] Hb He <- Hpos Hev.
  rewrite next_shape by assumption. cbn [fst snd output].
  split; [|reflexivity].
  apply block_ref; assumption.
Qed.


(** ** Invariants of the block function *)

Section Next.

Lemma next_exhausted (c : Cipher) :
  eof c = true -> next c = (c, Some ErrExhaustedKeystream).
Proof. intros H. unfold next. rewrite H. reflexivity. Qed.

Lemma next_ok (c : Cipher) : eof c = false -> (next c).2 = None.
Proof.
  intros H. unfold next. rewrite H.
  destruct (rounds_loop _ _). reflexivity.
Qed.

Lemma next_error (c : Cipher) (e : error) :
  (next c).2 = Some e -> e = ErrExhaustedKeystream /\ eof c = true /\ (next c).1 = c.
Proof.
  destruct (eof c) eqn:He.
  - rewrite next_exhausted by assumption. cbn. intros [= <-]. auto.
  - rewrite next_ok by assumption. discriminate.
Qed.

Lemma next_nextByte (c : Cipher) : eof c = false -> nextByte (next c).1 = 0.
Proof.
  intros H. unfold next. rewrite H.
  destruct (rounds_loop _ _). reflexivity.
Qed.

Lemma next_rounds (c : Cipher) : rounds (next c).1 = rounds c.
Proof.
  unfold next. destruct (eof c); [reflexivity|].
  destruct (rounds_loop _ _). reflexivity.
Qed.

Lemma length_PutUint32 (out : list Z) (off : nat) (v : Z) :
  length (PutUint32 out off v) = length out.
Proof. unfold PutUint32. rewrite !length_insert. reflexivity. Qed.

Lemma next_output_length (c : Cipher) :
  length (output (next c).1) = length (output c).
Proof.
  unfold next. destruct (eof c); [reflexivity|].
  destruct (rounds_loop _ _). cbn [fst output].
  rewrite !length_PutUint32. reflexivity.
Qed.

Lemma next_input (c : Cipher) :
  eof c = false -> input (next c).1 = bump (input c).
Proof.
  intros H. unfold next. rewrite H.
  destruct (rounds_loop _ _). reflexivity.
Qed.

Lemma next_eof (c : Cipher) :
  eof c = false ->
  eof (next c).1 = (if next_ctr (input c) =? 0 then true else false).
Proof.
  intros H. unfold next. rewrite H.
  destruct (rounds_loop _ _). reflexivity.
Qed.

End Next.

(** ** The loop body shared by [Read] and [XORKeyStream] *)

Section Stream.

Lemma set_nextByte_same (c : Cipher) : set_nextByte c (nextByte c) = c.
Proof. destruct c. reflexivity. Qed.

Lemma refill_error (c c1 : Cipher) (e : error) :
  refill c = (c1, Some e) ->
  c1 = c /\ e = ErrExhaustedKeystream /\ eof c = true /\ output_len <= nextByte c.
Proof.
  unfold refill. destruct (nextByte c >=? output_len) eqn:Hge; [|discriminate].
  intros H.
  assert (H2 : (next c).2 = Some e) by (rewrite H; reflexivity).
  apply next_error in H2 as (-> & He & Hc). rewrite H in Hc.
  rewrite Z.geb_leb in Hge. apply Z.leb_le in Hge. auto.
Qed.

Lemma refill_exhausted (c : Cipher) :
  eof c = true -> output_len <= nextByte c ->
  refill c = (c, Some ErrExhaustedKeystream).
Proof.
  intros He Hn. unfold refill.
  rewrite Z.geb_leb. apply Z.leb_le in Hn. rewrite Hn.
  apply next_exhausted, He.
Qed.

Lemma refill_within (c : Cipher) :
  nextByte c < output_len -> refill c = (c, None).
Proof.
  intros Hn. unfold refill. rewrite Z.geb_leb.
  apply Z.leb_gt in Hn. rewrite Hn. reflexivity.
Qed.

Lemma refill_next (c : Cipher) :
  output_len <= nextByte c -> refill c = next c.
Proof.
  intros Hn. unfold refill. rewrite Z.geb_leb.
  apply Z.leb_le in Hn. rewrite Hn. reflexivity.
Qed.

(** After the guard, a byte is there to be served: the cursor is
    strictly below 64. *)
Lemma refill_ok (c c1 : Cipher) :
  buffer_ok c -> cursor_ok c -> refill c = (c1, None) ->
  buffer_ok c1 /\ 0 <= nextByte c1 < output_len.
Proof.
  unfold buffer_ok, cursor_ok. intros Hb Hc H.
  destruct (Z_lt_le_dec (nextByte c) output_len) as [Hlt|Hge].
  - rewrite refill_within in H by assumption. injection H as <-.
    split; [assumption|lia].
  - rewrite refill_next in H by assumption.
    destruct (eof c) eqn:He; [rewrite next_exhausted in H by assumption; discriminate|].
    assert (c1 = (next c).1) as -> by (rewrite H; reflexivity).
    rewrite next_output_length, next_nextByte by assumption.
    split; [assumption|]. unfold output_len. lia.
Qed.

Lemma index_output (c : Cipher) :
  buffer_ok c -> 0 <= nextByte c < output_len ->
  index (output c) (nextByte c) = Done (output c !!! Z.to_nat (nextByte c)).
Proof.
  unfold buffer_ok, output_len, index. intros Hb Hn.
  destruct (Z.leb_spec 0 (nextByte c)) as [_|]; [|lia].
  rewrite list_lookup_lookup_total_lt by lia. reflexivity.
Qed.

Lemma served_ok (c : Cipher) :
  buffer_ok c -> 0 <= nextByte c < output_len ->
  buffer_ok (set_nextByte c (nextByte c + 1))
  /\ cursor_ok (set_nextByte c (nextByte c + 1)).
Proof.
  unfold buffer_ok, cursor_ok, output_len. cbn [set_nextByte output nextByte].
  intros Hb Hn. split; [assumption|lia].
Qed.

Lemma stream_inv (k : nat) (c : Cipher) :
  buffer_ok c -> cursor_ok c ->
  let '(ks, c', ex) := stream k c in
  buffer_ok c' /\ cursor_ok c' /\
  (length ks <= k)%nat /\
  (ex = false -> length ks = k) /\
  (ex = true -> eof c' = true /\ nextByte c' = output_len /\ (length ks < k)%nat).
Proof.
  revert c. induction k as [|k IH]; intros c Hb Hc; cbn [stream].
  - split; [assumption|]. split; [assumption|].
    split; [reflexivity|]. split; [reflexivity|discriminate].
  - destruct (refill c) as [c1 [e|]] eqn:Hr.
    + apply refill_error in Hr as (-> & _ & He & Hn).
      unfold cursor_ok in Hc.
      split; [assumption|]. split; [assumption|].
      split; [cbn; lia|]. split; [discriminate|].
      intros _. split; [assumption|]. split; [lia|cbn; lia].
    + destruct (refill_ok c c1 Hb Hc Hr) as [Hb1 Hn1].
      destruct (served_ok c1 Hb1 Hn1) as [Hb2 Hc2].
      specialize (IH _ Hb2 Hc2).
      destruct (stream k _) as [[ks c'] ex].
      destruct IH as (Hb' & Hc' & Hle & Hf & Ht).
      split; [assumption|]. split; [assumption|].
      split; [cbn; lia|]. split.
      * intros E. cbn. rewrite (Hf E). reflexivity.
      * intros E. destruct (Ht E) as (? & ? & ?).
        split; [assumption|]. split; [assumption|cbn; lia].
Qed.

Lemma insert_next {A} (p : list A) (i n : nat) (x : A) (ms : list A) :
  (i < length p)%nat ->
  take (S i) (<[i := x]> p) ++ ms ++ drop (S i + n) (<[i := x]> p)
  = take i p ++ (x :: ms) ++ drop (i + S n) p.
Proof.
  intros Hi.
  rewrite (take_S_r _ i x) by (apply list_lookup_insert_eq; exact Hi).
  rewrite take_insert_ge by lia.
  rewrite drop_insert_lt by lia.
  rewrite <- app_assoc. cbn [app].
  replace (i + S n)%nat with (S i + n)%nat by lia.
  reflexivity.
Qed.

(** [Read] serves the stream into its buffer and reports its length,
    with [io.EOF] when the stream was cut short. *)
Lemma Read_loop_stream (todo : nat) (c : Cipher) (p : list Z) (i : nat) :
  buffer_ok c -> cursor_ok c -> (i + todo <= length p)%nat ->
  Read_loop todo c p i =
    let '(ks, c', ex) := stream todo c in
    (c', take i p ++ ks ++ drop (i + length ks) p,
     Done (Z.of_nat (i + length ks), if ex then Some EOF else None)).
Proof.
  revert c p i. induction todo as [|todo IH]; intros c p i Hb Hc Hi;
    cbn [Read_loop stream].
  - cbn [length app]. rewrite Nat.add_0_r, take_drop. reflexivity.
  - destruct (refill c) as [c1 [e|]] eqn:Hr.
    + cbn [length app]. rewrite Nat.add_0_r, take_drop. reflexivity.
    + destruct (refill_ok c c1 Hb Hc Hr) as [Hb1 Hn1].
      destruct (served_ok c1 Hb1 Hn1) as [Hb2 Hc2].
      rewrite index_output by assumption.
      rewrite IH by (rewrite ?length_insert; assumption || lia).
      destruct (stream todo _) as [[ks c'] ex].
      rewrite insert_next by lia.
      cbn [length]. rewrite Nat.add_succ_r. reflexivity.
Qed.

Lemma index_src (src : list Z) (i : nat) :
  (i < length src)%nat -> index src (Z.of_nat i) = Done (src !!! i).
Proof.
  intros Hi. unfold index.
  destruct (Z.leb_spec 0 (Z.of_nat i)) as [_|]; [|lia].
  rewrite Nat2Z.id, list_lookup_lookup_total_lt by lia. reflexivity.
Qed.

Lemma index_src_out (src : list Z) (i : nat) :
  (length src <= i)%nat ->
  index src (Z.of_nat i) = Panicked (IndexOutOfRange (Z.of_nat i) (Z.of_nat (length src))).
Proof.
  intros Hi. unfold index.
  destruct (Z.leb_spec 0 (Z.of_nat i)) as [_|]; [|lia].
  rewrite Nat2Z.id, lookup_ge_None_2 by lia. reflexivity.
Qed.

(** [XORKeyStream], for a source at least as long as what is asked of
    it, XORs the stream with the source into the destination, and
    panics with the error of [next] when the stream was cut short. *)
Lemma XORKeyStream_loop_stream (todo : nat) (c : Cipher) (dst src : list Z) (i : nat) :
  buffer_ok c -> cursor_ok c ->
  (i + todo <= length dst)%nat -> (i + todo <= length src)%nat ->
  XORKeyStream_loop todo c dst src i =
    let '(ks, c', ex) := stream todo c in
    (c', take i dst ++ zip_with Z.lxor (drop i src) ks ++ drop (i + length ks) dst,
     if ex then Panicked (PanicError ErrExhaustedKeystream) else Done tt).
Proof.
  revert c dst i. induction todo as [|todo IH]; intros c dst i Hb Hc Hd Hs;
    cbn [XORKeyStream_loop stream].
  - rewrite zip_with_nil_r. cbn [length app]. rewrite Nat.add_0_r, take_drop. reflexivity.
  - destruct (refill c) as [c1 [e|]] eqn:Hr.
    + apply refill_error in Hr as (-> & -> & _).
      rewrite zip_with_nil_r. cbn [length app]. rewrite Nat.add_0_r, take_drop. reflexivity.
    + destruct (refill_ok c c1 Hb Hc Hr) as [Hb1 Hn1].
      destruct (served_ok c1 Hb1 Hn1) as [Hb2 Hc2].
      rewrite index_src by lia.
      rewrite index_output by assumption.
      rewrite IH by (rewrite ?length_insert; assumption || lia).
      destruct (stream todo _) as [[ks c'] ex].
      rewrite (drop_S src (src !!! i) i) by (apply list_lookup_lookup_total_lt; lia).
      cbn [zip_with length].
      rewrite insert_next by lia. reflexivity.
Qed.

(** Within the buffered block the stream is the buffer from the cursor
    on; no block is generated. *)
Lemma stream_drain (k : nat) (c : Cipher) :
  buffer_ok c -> 0 <= nextByte c -> nextByte c + Z.of_nat k <= output_len ->
  stream k c =
    (take k (drop (Z.to_nat (nextByte c)) (output c)),
     set_nextByte c (nextByte c + Z.of_nat k), false).
Proof.
  revert c. induction k as [|k IH]; intros c Hb H0 Hk; cbn [stream].
  - rewrite Z.add_0_r, set_nextByte_same. reflexivity.
  - rewrite refill_within by lia.
    rewrite IH; cbn [set_nextByte nextByte output]; [|assumption|lia|lia].
    unfold buffer_ok, output_len in *.
    rewrite (drop_S (output c) (output c !!! Z.to_nat (nextByte c)) (Z.to_nat (nextByte c)))
      by (apply list_lookup_lookup_total_lt; lia).
    replace (Z.to_nat (nextByte c + 1)) with (S (Z.to_nat (nextByte c))) by lia.
    replace (nextByte c + 1 + Z.of_nat k) with (nextByte c + Z.of_nat (S k)) by lia.
    reflexivity.
Qed.

(** With the buffer used up and the keystream exhausted nothing is
    served. *)
Lemma stream_exhausted (k : nat) (c : Cipher) :
  eof c = true -> output_len <= nextByte c -> stream (S k) c = ([], c, true).
Proof. intros He Hn. cbn [stream]. rewrite refill_exhausted by assumption. reflexivity. Qed.

(** With the buffer used up and the keystream not exhausted the stream
    goes on with the block [next] generates. *)
Lemma stream_regenerate (k : nat) (c : Cipher) :
  eof c = false -> output_len <= nextByte c ->
  stream (S k) c = stream (S k) (next c).1.
Proof.
  intros He Hn. cbn [stream].
  rewrite (refill_next c) by assumption.
  rewrite (refill_within (next c).1)
    by (rewrite next_nextByte by assumption; reflexivity).
  destruct (next c) as [c1 e] eqn:Hx.
  assert (e = None) as -> by (rewrite <- (next_ok c He), Hx; reflexivity).
  reflexivity.
Qed.

Lemma stream_app (a b : nat) (c : Cipher) :
  stream (a + b) c =
    let '(ks1, c1, ex1) := stream a c in
    if ex1 then (ks1, c1, true)
    else let '(ks2, c2, ex2) := stream b c1 in (ks1 ++ ks2, c2, ex2).
Proof.
  revert c. induction a as [|a IH]; intros c; cbn [stream Nat.add].
  - destruct (stream b c) as [[ks2 c2] ex2]. reflexivity.
  - destruct (refill c) as [c1 [e|]]; [reflexivity|].
    rewrite IH.
    destruct (stream a _) as [[ks1 c2] [|]]; [reflexivity|].
    destruct (stream b c2) as [[ks2 c3] ex2]. reflexivity.
Qed.

(** The two loops keep the representation invariants, whatever the
    buffers and however the call ends. *)
Lemma Read_loop_inv (todo : nat) (c : Cipher) (p : list Z) (i : nat) :
  buffer_ok c -> cursor_ok c ->
  buffer_ok (Read_loop todo c p i).1.1 /\ cursor_ok (Read_loop todo c p i).1.1.
Proof.
  revert c p i. induction todo as [|todo IH]; intros c p i Hb Hc; cbn [Read_loop].
  - auto.
  - destruct (refill c) as [c1 [e|]] eqn:Hr.
    + apply refill_error in Hr as (-> & _). auto.
    + destruct (refill_ok c c1 Hb Hc Hr) as [Hb1 Hn1].
      destruct (served_ok c1 Hb1 Hn1) as [Hb2 Hc2].
      rewrite index_output by assumption.
      apply IH; assumption.
Qed.

Lemma XORKeyStream_loop_inv (todo : nat) (c : Cipher) (dst src : list Z) (i : nat) :
  buffer_ok c -> cursor_ok c ->
  buffer_ok (XORKeyStream_loop todo c dst src i).1.1
  /\ cursor_ok (XORKeyStream_loop todo c dst src i).1.1.
Proof.
  revert c dst i. induction todo as [|todo IH]; intros c dst i Hb Hc;
    cbn [XORKeyStream_loop].
  - auto.
  - destruct (refill c) as [c1 [e|]] eqn:Hr.
    + apply refill_error in Hr as (-> & _). auto.
    + destruct (refill_ok c c1 Hb Hc Hr) as [Hb1 Hn1].
      destruct (served_ok c1 Hb1 Hn1) as [Hb2 Hc2].
      assert (Hc1 : cursor_ok c1) by (unfold cursor_ok; lia).
      destruct (index src (Z.of_nat i)); [|auto].
      rewrite index_output by assumption.
      apply IH; assumption.
Qed.

(** The only panics of [XORKeyStream]: the error of [next], and a source
    that ends before the destination does. *)
Lemma XORKeyStream_loop_panics (todo : nat) (c : Cipher) (dst src : list Z) (i : nat) (x : panic) :
  buffer_ok c -> cursor_ok c ->
  (XORKeyStream_loop todo c dst src i).2 = Panicked x ->
  x = PanicError ErrExhaustedKeystream
  \/ exists j, (i <= j < i + todo)%nat /\ (length src <= j)%nat /\
               x = IndexOutOfRange (Z.of_nat j) (Z.of_nat (length src)).
Proof.
  revert c dst i. induction todo as [|todo IH]; intros c dst i Hb Hc;
    cbn [XORKeyStream_loop].
  - discriminate.
  - destruct (refill c) as [c1 [e|]] eqn:Hr.
    + apply refill_error in Hr as (-> & -> & _). intros [= <-]. left. reflexivity.
    + destruct (refill_ok c c1 Hb Hc Hr) as [Hb1 Hn1].
      destruct (served_ok c1 Hb1 Hn1) as [Hb2 Hc2].
      destruct (le_lt_dec (length src) i) as [Hout|Hin].
      * rewrite index_src_out by assumption. intros [= <-].
        right. exists i. split; [lia|]. split; [assumption|reflexivity].
      * rewrite index_src by assumption.
        rewrite index_output by assumption.
        intros H. apply IH in H as [H|(j & Hj & Hl & ->)]; [left; exact H| |assumption|assumption].
        right. exists j. split; [lia|]. split; [assumption|reflexivity].
Qed.

End Stream.

(** ** Construction *)

Section Construction.

(** One read of [New]: [binary.LittleEndian.Uint32(s[off:])]. *)
Lemma read_word (s : list Z) (off : Z) :
  0 <= off -> off + 4 <= Z.of_nat (length s) ->
  (x ← slice_from s off; Uint32 x) = Done (le32 s (Z.to_nat off)).
Proof.
  intros H0 H. unfold slice_from.
  destruct (Z.leb_spec 0 off) as [_|]; [|lia].
  destruct (Z.leb_spec off (Z.of_nat (length s))) as [_|]; [|lia].
  cbn [andb mbind outcome_bind].
  unfold le32.
  assert (s !!! Z.to_nat off = drop (Z.to_nat off) s !!! 0%nat) as ->
    by (rewrite lookup_total_drop, Nat.add_0_r; reflexivity).
  rewrite <- !lookup_total_drop.
  assert (Hl : (4 <= length (drop (Z.to_nat off) s))%nat) by (rewrite length_drop; lia).
  destruct (drop (Z.to_nat off) s) as [|b0 [|b1 [|b2 [|b3 t]]]]; cbn [length] in Hl; try lia.
  reflexivity.
Qed.

Lemma read_word_short (s : list Z) (off : Z) :
  0 <= off <= Z.of_nat (length s) -> Z.of_nat (length s) < off + 4 ->
  (x ← slice_from s off; Uint32 x)
  = Panicked (IndexOutOfRange 3 (Z.of_nat (length s) - off)).
Proof.
  intros H0 H. unfold slice_from.
  destruct (Z.leb_spec 0 off) as [_|]; [|lia].
  destruct (Z.leb_spec off (Z.of_nat (length s))) as [_|]; [|lia].
  cbn [andb mbind outcome_bind].
  replace (Z.of_nat (length s) - off) with (Z.of_nat (length (drop (Z.to_nat off) s)))
    by (rewrite length_drop; lia).
  assert (Hl : (length (drop (Z.to_nat off) s) < 4)%nat) by (rewrite length_drop; lia).
  destruct (drop (Z.to_nat off) s) as [|b0 [|b1 [|b2 [|b3 t]]]]; cbn [length] in Hl; try lia;
    reflexivity.
Qed.

Ltac read_ok := rewrite read_word by lia; cbn [mbind outcome_bind].

Lemma New_ok (key iv : list Z) (r : Z) :
  (32 <= length key)%nat -> (8 <= length iv)%nat ->
  New key iv r = Done (initial key iv r).
Proof.
  intros Hk Hi. unfold New. do 10 read_ok. reflexivity.
Qed.

(** A slice that is too short stops [New] at the first word it cannot
    supply: the bounds check of [Uint32] panics on what is left of the
    slice. *)
Ltac read_or_panic s off :=
  destruct (Z_le_gt_dec (off + 4) (Z.of_nat (length s)));
  [ rewrite (read_word s off) by lia; cbn [mbind outcome_bind]
  | rewrite (read_word_short s off) by lia;
    cbn [mbind outcome_bind]; do 2 f_equal;
    Z.to_euclidean_division_equations; lia ].

Lemma New_short_key (key iv : list Z) (r : Z) :
  (length key < 32)%nat ->
  New key iv r = Panicked (IndexOutOfRange 3 (Z.of_nat (length key) mod 4)).
Proof.
  intros Hk. unfold New.
  read_or_panic key 0. read_or_panic key 4. read_or_panic key 8.
  read_or_panic key 12. read_or_panic key 16. read_or_panic key 20.
  read_or_panic key 24. read_or_panic key 28. lia.
Qed.

Lemma New_short_iv (key iv : list Z) (r : Z) :
  (32 <= length key)%nat -> (length iv < 8)%nat ->
  New key iv r = Panicked (IndexOutOfRange 3 (Z.of_nat (length iv) mod 4)).
Proof.
  intros Hk Hi. unfold New.
  rewrite (read_word key 0), (read_word key 4), (read_word key 8),
    (read_word key 12), (read_word key 16), (read_word key 20),
    (read_word key 24), (read_word key 28) by lia.
  cbn [mbind outcome_bind].
  read_or_panic iv 0. read_or_panic iv 4. lia.
Qed.

Lemma le32_take (s : list Z) (n off : nat) :
  (off + 4 <= n)%nat -> le32 (take n s) off = le32 s off.
Proof.
  intros H. unfold le32. rewrite !lookup_total_take_lt by lia. reflexivity.
Qed.

Lemma initial_take (key iv : list Z) (r : Z) :
  initial (take 32 key) (take 8 iv) r = initial key iv r.
Proof. unfold initial. rewrite !le32_take by lia. reflexivity. Qed.

End Construction.

(** ** The block counter *)

Section Counter.

Lemma words_ok_lookup (c : Cipher) (i : nat) :
  words_ok c -> (i < 16)%nat -> U32.in_range (input c !!! i).
Proof.
  intros [Hl Hr] Hi. apply Forall_lookup_total_1; [exact Hr|lia].
Qed.

Lemma pair_value (hi lo : Z) :
  U32.in_range hi -> U32.in_range lo ->
  Z.lor (Z.shiftl hi 32) lo = hi * 2 ^ 32 + lo
  /\ 0 <= hi * 2 ^ 32 + lo < 2 ^ 64.
Proof.
  unfold U32.in_range, U32.modulus. intros Hh Hl.
  rewrite Z.shiftl_mul_pow2 by lia.
  rewrite lor_disjoint by lia. split; [reflexivity|lia].
Qed.

Lemma counter_range (c : Cipher) :
  words_ok c -> 0 <= counter c < 2 ^ 64.
Proof.
  intros H. unfold counter.
  destruct (pair_value (input c !!! 13%nat) (input c !!! 12%nat)) as [-> Hr];
    try (apply words_ok_lookup; [exact H|lia]).
  exact Hr.
Qed.

(** The counter update of [next] is an increment modulo [2^64]. *)
Lemma next_ctr_value (c : Cipher) :
  words_ok c -> next_ctr (input c) = (counter c + 1) mod 2 ^ 64.
Proof.
  intros H. unfold next_ctr, counter, wrap64.
  pose proof (words_ok_lookup c 13 H ltac:(lia)) as H13.
  pose proof (words_ok_lookup c 12 H ltac:(lia)) as H12.
  unfold U32.in_range, U32.modulus in *.
  rewrite (Z.mod_small (Z.shiftl _ 32)); [reflexivity|].
  rewrite Z.shiftl_mul_pow2 by lia. lia.
Qed.

Lemma split_value (x : Z) :
  0 <= x < 2 ^ 64 ->
  Z.lor (Z.shiftl (U32.wrap (Z.shiftr x 32)) 32) (U32.wrap x) = x.
Proof.
  intros Hx. unfold U32.wrap, U32.modulus.
  rewrite Z.shiftr_div_pow2, Z.shiftl_mul_pow2 by lia.
  assert (Hd : 0 <= x / 2 ^ 32 < 2 ^ 32).
  { split; [apply Z.div_pos; lia|apply Z.div_lt_upper_bound; lia]. }
  rewrite (Z.mod_small (x / 2 ^ 32)) by exact Hd.
  pose proof (Z.mod_pos_bound x (2 ^ 32) ltac:(lia)) as Hm.
  rewrite lor_disjoint by lia.
  pose proof (Z.div_mod x (2 ^ 32) ltac:(lia)). lia.
Qed.

Lemma bump_lookup (inp : list Z) :
  length inp = 16%nat ->
  bump inp !!! 12%nat = U32.wrap (next_ctr inp)
  /\ bump inp !!! 13%nat = U32.wrap (Z.shiftr (next_ctr inp) 32).
Proof.
  intros Hl. unfold bump. split.
  - rewrite list_lookup_total_insert_ne by lia.
    apply list_lookup_total_insert_eq. lia.
  - apply list_lookup_total_insert_eq. rewrite length_insert. lia.
Qed.

Lemma bump_other (inp : list Z) (i : nat) :
  i <> 12%nat -> i <> 13%nat -> bump inp !! i = inp !! i.
Proof.
  intros H12 H13. unfold bump.
  rewrite !list_lookup_insert_ne by congruence. reflexivity.
Qed.

Lemma length_bump (inp : list Z) : length (bump inp) = length inp.
Proof. unfold bump. rewrite !length_insert. reflexivity. Qed.

Lemma bump_in_range (inp : list Z) :
  Forall U32.in_range inp -> Forall U32.in_range (bump inp).
Proof.
  intros H. unfold bump.
  apply Forall_insert; [apply Forall_insert; [exact H|]|]; apply wrap_in_range.
Qed.

Lemma next_ctr_range (inp : list Z) : 0 <= next_ctr inp < 2 ^ 64.
Proof. unfold next_ctr, wrap64. apply Z.mod_pos_bound. lia. Qed.

Lemma next_counter (c : Cipher) :
  words_ok c -> eof c = false ->
  counter (next c).1 = (counter c + 1) mod 2 ^ 64.
Proof.
  intros H He. unfold counter at 1.
  rewrite next_input by assumption.
  destruct (bump_lookup (input c) (proj1 H)) as [-> ->].
  rewrite split_value by apply next_ctr_range.
  apply next_ctr_value, H.
Qed.

Lemma next_words_ok (c : Cipher) : words_ok c -> words_ok (next c).1.
Proof.
  intros H. destruct (eof c) eqn:He.
  - rewrite next_exhausted by assumption. exact H.
  - unfold words_ok. rewrite next_input by assumption.
    rewrite length_bump. split; [apply H|apply bump_in_range, H].
Qed.

Lemma length_block (inp : list Z) (r : Z) :
  length inp = 16%nat -> length (block inp r) = 64%nat.
Proof.
  intros Hl.
  pose (c := {| input := inp; output := replicate 64 0; nextByte := 0;
                rounds := r; eof := false |}).
  pose proof (next_output_length c) as H.
  rewrite (next_shape c) in H by (cbn; rewrite ?length_replicate; auto).
  unfold c in H. cbn [fst output] in H.
  rewrite length_replicate in H. exact H.
Qed.

End Counter.

(** ** [Read] and [XORKeyStream] in terms of the stream *)

Section Calls.

Lemma Read_stream (c : Cipher) (p : list Z) :
  buffer_ok c -> cursor_ok c ->
  Read c p =
    let '(ks, c', ex) := stream (length p) c in
    (c', ks ++ drop (length ks) p,
     Done (Z.of_nat (length ks), if ex then Some EOF else None)).
Proof.
  intros Hb Hc. unfold Read.
  rewrite Read_loop_stream by (assumption || lia).
  destruct (stream _ _) as [[ks c'] ex]. reflexivity.
Qed.

Lemma XORKeyStream_stream (c : Cipher) (dst src : list Z) :
  buffer_ok c -> cursor_ok c -> (length dst <= length src)%nat ->
  XORKeyStream c dst src =
    let '(ks, c', ex) := stream (length dst) c in
    (c', zip_with Z.lxor src ks ++ drop (length ks) dst,
     if ex then Panicked (PanicError ErrExhaustedKeystream) else Done tt).
Proof.
  intros Hb Hc Hl. unfold XORKeyStream.
  rewrite XORKeyStream_loop_stream by (assumption || lia).
  destruct (stream _ _) as [[ks c'] ex]. reflexivity.
Qed.

(** A request the buffered block can satisfy is served from the buffer,
    starting at the cursor. *)
Lemma Read_drain (c : Cipher) (p : list Z) :
  buffer_ok c -> 0 <= nextByte c ->
  nextByte c + Z.of_nat (length p) <= output_len ->
  Read c p =
    (set_nextByte c (nextByte c + Z.of_nat (length p)),
     take (length p) (drop (Z.to_nat (nextByte c)) (output c)),
     Done (Z.of_nat (length p), None)).
Proof.
  intros Hb H0 Hk.
  rewrite Read_stream by (assumption || (unfold cursor_ok; lia)).
  rewrite stream_drain by assumption.
  unfold buffer_ok, output_len in *.
  assert (Hlen : length (take (length p) (drop (Z.to_nat (nextByte c)) (output c)))
                 = length p) by (rewrite length_take, length_drop; lia).
  rewrite Hlen, drop_all, app_nil_r. reflexivity.
Qed.

End Calls.

(** ** Representation invariants *)

Section Invariants.

Lemma or_in_range (x y : Z) :
  U32.in_range x -> U32.in_range y -> U32.in_range (x |! y).
Proof.
  unfold U32.in_range, U32.or, U32.modulus. intros Hx Hy.
  assert (H0 : 0 <= Z.lor x y) by (apply Z.lor_nonneg; lia).
  split; [exact H0|].
  apply below_pow2; [lia|exact H0|].
  intros i Hi. rewrite Z.lor_spec.
  rewrite (small_bits x 32 i), (small_bits y 32 i) by (assumption || lia).
  reflexivity.
Qed.

Lemma le32_in_range (s : list Z) (off : nat) :
  Forall is_byte s -> (off + 4 <= length s)%nat -> U32.in_range (le32 s off).
Proof.
  intros Hs Hl. unfold le32.
  assert (Hb : forall i, (i < length s)%nat -> U32.in_range (s !!! i)).
  { intros i Hi. pose proof (Forall_lookup_total_1 _ _ i Hs Hi) as H.
    unfold is_byte in H. unfold U32.in_range, U32.modulus. lia. }
  repeat apply or_in_range; try apply wrap_in_range.
  apply Hb. lia.
Qed.

(** [New] establishes the invariants. *)
Lemma initial_wf (key iv : list Z) (r : Z) :
  Forall is_byte key -> Forall is_byte iv ->
  (32 <= length key)%nat -> (8 <= length iv)%nat ->
  wf (initial key iv r).
Proof.
  intros Hk Hi Lk Li. split; [split; [reflexivity|]|split].
  - unfold initial. cbn [input].
    repeat (apply List.Forall_cons;
            [first [ apply le32_in_range; [assumption|lia]
                   | unfold U32.in_range, U32.modulus; lia ]|]).
    apply List.Forall_nil.
  - reflexivity.
  - unfold cursor_ok, output_len. cbn. lia.
Qed.

Lemma next_wf (c : Cipher) : wf c -> wf (next c).1.
Proof.
  intros (Hw & Hb & Hc). split; [apply next_words_ok, Hw|]. split.
  - unfold buffer_ok. rewrite next_output_length. exact Hb.
  - destruct (eof c) eqn:He.
    + rewrite next_exhausted by assumption. exact Hc.
    + unfold cursor_ok, output_len. rewrite next_nextByte by assumption. lia.
Qed.

End Invariants.

(** * The claims *)

(** C1.  For 20 rounds, the key of 32 zero bytes and the nonce of 8 zero
    bytes, the first 64 keystream bytes, those of block 0 and the first
    the cipher generates after construction, are the published ChaCha20
    test vector; [Read] delivers all 64 of them with no error. *)
Theorem chacha20_zero_key_block0 :
  exists c,
    New zero_key zero_iv 20 = Done c
    /\ (Read c (replicate 64 0)).1.2 = chacha20_zero_block
    /\ (Read c (replicate 64 0)).2 = Done (64, None)
    /\ output (next c).1 = chacha20_zero_block.
Proof.
  exists (initial zero_key zero_iv 20).
  split; [reflexivity|]. vm_compute. auto.
Qed.

Lemma zero_key_bytes : Forall is_byte zero_key.
Proof. apply Forall_replicate. unfold is_byte. lia. Qed.

Lemma zero_iv_bytes : Forall is_byte zero_iv.
Proof. apply Forall_replicate. unfold is_byte. lia. Qed.

Lemma zero_initial_wf (r : Z) : wf (initial zero_key zero_iv r).
Proof.
  apply initial_wf;
    [apply zero_key_bytes|apply zero_iv_bytes|cbn; lia|cbn; lia].
Qed.

Lemma next_refines_reference_witness :
  let c := initial zero_key zero_iv 20 in
  words_ok c /\ buffer_ok c /\ eof c = false /\ rounds c = 20 /\ 0 < 20
  /\ Z.even 20 = true
  /\ output (next c).1 = Ref.block (input c) 20 /\ (next c).2 = None.
Proof.
  intros c.
  assert (Hw : words_ok c) by apply (zero_initial_wf 20).
  assert (Hb : buffer_ok c) by reflexivity.
  assert (He : eof c = false) by reflexivity.
  assert (Hr : rounds c = 20) by reflexivity.
  assert (Hp : 0 < 20) by lia.
  assert (Hv : Z.even 20 = true) by reflexivity.
  repeat (split; [assumption|]).
  exact (next_refines_reference c 20 Hw Hb He Hr Hp Hv).
Defined.

(** C3, as the code has it.  [New] has no error result.  With a key
    shorter than 32 bytes, or a key long enough and a nonce shorter than 8
    bytes, it does not return: the bounds check of the first four-byte
    read the slice cannot supply panics (index 3 out of range for the
    [len mod 4] bytes left), and nothing is read out of bounds.  With at
    least 32 key bytes and 8 nonce bytes it returns a cipher made of
    the first 32 key bytes and the first 8 nonce bytes only. *)
Theorem New_lengths (key iv : list Z) (r : Z) :
  ((length key < 32)%nat ->
   New key iv r = Panicked (IndexOutOfRange 3 (Z.of_nat (length key) mod 4)))
  /\ ((32 <= length key)%nat -> (length iv < 8)%nat ->
      New key iv r = Panicked (IndexOutOfRange 3 (Z.of_nat (length iv) mod 4)))
  /\ ((32 <= length key)%nat -> (8 <= length iv)%nat ->
      New key iv r = Done (initial key iv r)
      /\ New (take 32 key) (take 8 iv) r = New key iv r).
Proof.
  split; [apply New_short_key|]. split; [apply New_short_iv|].
  intros Hk Hi. split; [apply New_ok; assumption|].
  rewrite (New_ok key iv) by assumption.
  rewrite New_ok by (rewrite length_take; lia).
  rewrite initial_take. reflexivity.
Qed.

Lemma New_lengths_witness :
  New [1; 2; 3; 4; 5] zero_iv 20 = Panicked (IndexOutOfRange 3 1)
  /\ New zero_key [1; 2] 20 = Panicked (IndexOutOfRange 3 2)
  /\ New (zero_key ++ [7]) (zero_iv ++ [9]) 20 = Done (initial zero_key zero_iv 20).
Proof.
  split; [|split].
  - apply (proj1 (New_lengths [1; 2; 3; 4; 5] zero_iv 20)). cbn. lia.
  - apply (proj1 (proj2 (New_lengths zero_key [1; 2] 20))); cbn; lia.
  - destruct (proj2 (proj2 (New_lengths (zero_key ++ [7]) (zero_iv ++ [9]) 20)))
      as [H _]; [cbn; lia|cbn; lia|].
    rewrite H. reflexivity.
Defined.

(** C3, as stated, fails: for the empty key [New] returns no error value
    of any kind; the call panics in the runtime's bounds check. *)
Lemma New_empty_key_panics :
  New [] zero_iv 20 = Panicked (IndexOutOfRange 3 0)
  /\ ~ (exists c, New [] zero_iv 20 = Done c).
Proof.
  split; [reflexivity|]. intros [c H]. discriminate H.
Qed.

(** C4.  Every successful block generation (one entered with the
    exhausted flag clear) adds exactly one to the 64-bit counter
    [(words[13] << 32 | words[12])], modulo [2^64].  When the addition
    wraps, the exhausted flag is set, yet the block just produced is in
    the output buffer with the cursor at 0, a [Read] serves all 64 bytes of
    it without error, and only the next generation fails, changing
    nothing. *)
Theorem next_increments_counter (c : Cipher) :
  words_ok c -> buffer_ok c -> eof c = false ->
  let c' := (next c).1 in
  (next c).2 = None
  /\ counter c' = (counter c + 1) mod 2 ^ 64
  /\ output c' = block (input c) (rounds c)
  /\ nextByte c' = 0
  /\ (counter c < max_uint64 -> counter c' = counter c + 1 /\ eof c' = false)
  /\ (counter c = max_uint64 ->
      counter c' = 0 /\ eof c' = true
      /\ Read c' (replicate 64 0)
         = (set_nextByte c' 64, block (input c) (rounds c), Done (64, None))
      /\ next c' = (c', Some ErrExhaustedKeystream)).
Proof.
  intros Hw Hb He c'.
  pose proof (next_counter c Hw He) as Hctr.
  pose proof (counter_range c Hw) as Hrange.
  assert (Hout : output c' = block (input c) (rounds c)).
  { unfold c'. rewrite next_shape by (assumption || apply Hw). reflexivity. }
  assert (Heof : eof c' = (if (counter c + 1) mod 2 ^ 64 =? 0 then true else false)).
  { unfold c'. rewrite next_eof, next_ctr_value by assumption. reflexivity. }
  split; [apply next_ok, He|].
  split; [exact Hctr|].
  split; [exact Hout|].
  split; [apply next_nextByte, He|].
  unfold max_uint64. split.
  - intros Hlt. fold c' in Hctr. rewrite Hctr, Heof.
    rewrite Z.mod_small by lia.
    destruct (Z.eqb_spec (counter c + 1) 0) as [E|_]; [lia|]. auto.
  - intros Hmax. fold c' in Hctr.
    assert (Hz : (counter c + 1) mod 2 ^ 64 = 0) by (rewrite Hmax; reflexivity).
    rewrite Hz in Hctr, Heof. cbn in Heof.
    split; [exact Hctr|]. split; [exact Heof|].
    split; [|apply next_exhausted, Heof].
    assert (Hb' : buffer_ok c')
      by (unfold buffer_ok, c'; rewrite next_output_length; exact Hb).
    assert (Hn' : nextByte c' = 0) by (apply next_nextByte, He).
    rewrite Read_drain; rewrite ?Hn', ?length_replicate;
      [|exact Hb'|lia|unfold output_len; lia].
    rewrite take_ge by (rewrite length_drop; unfold buffer_ok in Hb'; lia).
    cbn [Z.to_nat drop]. rewrite Hout. reflexivity.
Qed.

(** C9.  The cursor [nextByte] lies in [0, 64] after construction and
    after [next], [Seek], [Read] and [XORKeyStream], however the call ends;
    whenever the loop body of [Read] or [XORKeyStream] gets past its guard
    to serve a byte the cursor is strictly below 64 and the indexing
    [c.output[c.nextByte]] is in bounds, so [Read] never panics and
    [XORKeyStream] panics on exhaustion or on a short source only. *)
Theorem cursor_in_range (c : Cipher) (p dst src : list Z) (n : Z) :
  buffer_ok c -> cursor_ok c ->
  (forall key iv r c0, New key iv r = Done c0 -> buffer_ok c0 /\ nextByte c0 = 64)
  /\ (buffer_ok (next c).1 /\ cursor_ok (next c).1)
  /\ (buffer_ok (Seek c n) /\ cursor_ok (Seek c n))
  /\ (buffer_ok (Read c p).1.1 /\ cursor_ok (Read c p).1.1)
  /\ (buffer_ok (XORKeyStream c dst src).1.1 /\ cursor_ok (XORKeyStream c dst src).1.1)
  /\ (forall c1, refill c = (c1, None) ->
      0 <= nextByte c1 < 64
      /\ index (output c1) (nextByte c1) = Done (output c1 !!! Z.to_nat (nextByte c1)))
  /\ (exists r, (Read c p).2 = Done r)
  /\ (forall x, (XORKeyStream c dst src).2 = Panicked x ->
      x = PanicError ErrExhaustedKeystream
      \/ ((length src < length dst)%nat
          /\ exists j, (length src <= j < length dst)%nat
                       /\ x = IndexOutOfRange (Z.of_nat j) (Z.of_nat (length src)))).
Proof.
  intros Hb Hc.
  assert (Hnext : forall c, buffer_ok c -> cursor_ok c ->
                            buffer_ok (next c).1 /\ cursor_ok (next c).1).
  { clear. intros c Hb Hc. split.
    - unfold buffer_ok. rewrite next_output_length. exact Hb.
    - destruct (eof c) eqn:He.
      + rewrite next_exhausted by assumption. exact Hc.
      + unfold cursor_ok, output_len. rewrite next_nextByte by assumption. lia. }
  split.
  { intros key iv r c0 H.
    destruct (le_lt_dec 32 (length key)) as [Hk|Hk];
      [|rewrite New_short_key in H by assumption; discriminate H].
    destruct (le_lt_dec 8 (length iv)) as [Hi|Hi];
      [|rewrite New_short_iv in H by assumption; discriminate H].
    rewrite New_ok in H by assumption. injection H as <-.
    split; reflexivity. }
  split; [apply Hnext; assumption|].
  split.
  { unfold Seek. split.
    - unfold buffer_ok. rewrite next_output_length. exact Hb.
    - unfold cursor_ok, output_len. rewrite next_nextByte by reflexivity. lia. }
  split; [apply Read_loop_inv; assumption|].
  split; [apply XORKeyStream_loop_inv; assumption|].
  split.
  { intros c1 Hr. destruct (refill_ok c c1 Hb Hc Hr) as [Hb1 Hn1].
    split; [exact Hn1|]. apply index_output; assumption. }
  split.
  { rewrite Read_stream by assumption.
    destruct (stream _ _) as [[ks c'] ex]. eexists. reflexivity. }
  intros x Hx.
  apply XORKeyStream_loop_panics in Hx as [Hx|(j & Hj & Hl & ->)];
    [left; exact Hx| |assumption|assumption].
  right. split; [lia|]. exists j. split; [lia|reflexivity].
Qed.

Lemma last_block_cipher_wf : wf last_block_cipher.
Proof.
  split; [split; [reflexivity|]|split; [reflexivity|]].
  - unfold last_block_cipher.
    apply Forall_insert; [apply Forall_insert|];
      [apply (zero_initial_wf 20)| |]; unfold U32.in_range, U32.modulus; lia.
  - unfold cursor_ok, output_len. cbn. lia.
Qed.

Lemma next_increments_counter_witness :
  let c := last_block_cipher in
  words_ok c /\ buffer_ok c /\ eof c = false /\ counter c = max_uint64
  /\ counter (next c).1 = 0 /\ eof (next c).1 = true /\ nextByte (next c).1 = 0
  /\ next (next c).1 = ((next c).1, Some ErrExhaustedKeystream).
Proof.
  intros c.
  assert (Hw : words_ok c) by apply last_block_cipher_wf.
  assert (Hb : buffer_ok c) by reflexivity.
  assert (He : eof c = false) by reflexivity.
  assert (Hm : counter c = max_uint64) by reflexivity.
  destruct (next_increments_counter c Hw Hb He) as (_ & _ & _ & Hn & _ & Hlast).
  destruct (Hlast Hm) as (H0 & H1 & _ & H2).
  exact (conj Hw (conj Hb (conj He (conj Hm (conj H0 (conj H1 (conj Hn H2))))))).
Defined.

Lemma cursor_in_range_witness :
  let c := initial zero_key zero_iv 20 in
  buffer_ok c /\ cursor_ok c
  /\ cursor_ok (next c).1 /\ cursor_ok (Seek c 5)
  /\ cursor_ok (Read c [0; 0; 0]).1.1
  /\ cursor_ok (XORKeyStream c [0; 0] [1; 2]).1.1.
Proof.
  intros c.
  assert (Hb : buffer_ok c) by reflexivity.
  assert (Hc : cursor_ok c) by (unfold cursor_ok, output_len; cbn; lia).
  destruct (cursor_in_range c [0; 0; 0] [0; 0] [1; 2] 5 Hb Hc)
    as (_ & [_ H1] & [_ H2] & [_ H3] & [_ H4] & _).
  exact (conj Hb (conj Hc (conj H1 (conj H2 (conj H3 H4))))).
Defined.

(** ** [Read] *)

Section ReadFacts.

Lemma Read_regenerate (c : Cipher) (p : list Z) :
  buffer_ok c -> nextByte c = output_len -> eof c = false -> p <> [] ->
  Read c p = Read (next c).1 p.
Proof.
  intros Hb Hn He Hp.
  assert (Hc : cursor_ok c) by (unfold cursor_ok; rewrite Hn; unfold output_len; lia).
  rewrite (Read_stream c) by assumption.
  rewrite (Read_stream (next c).1).
  - destruct p as [|x p]; [congruence|]. cbn [length].
    rewrite stream_regenerate by (assumption || lia). reflexivity.
  - unfold buffer_ok. rewrite next_output_length. exact Hb.
  - unfold cursor_ok, output_len. rewrite next_nextByte by assumption. lia.
Qed.

Lemma Read_exhausted (c : Cipher) (p : list Z) :
  buffer_ok c -> nextByte c = output_len -> eof c = true -> p <> [] ->
  Read c p = (c, p, Done (0, Some EOF)).
Proof.
  intros Hb Hn He Hp.
  assert (Hc : cursor_ok c) by (unfold cursor_ok; rewrite Hn; unfold output_len; lia).
  rewrite Read_stream by assumption.
  destruct p as [|x p]; [congruence|]. cbn [length].
  rewrite stream_exhausted by (assumption || lia). reflexivity.
Qed.

Lemma Read_outcome (c : Cipher) (p : list Z) :
  buffer_ok c -> cursor_ok c ->
  exists c' p' n err,
    Read c p = (c', p', Done (Z.of_nat n, err))
    /\ (n <= length p)%nat /\ length p' = length p /\ drop n p' = drop n p
    /\ (err = None /\ n = length p
        \/ err = Some EOF /\ (n < length p)%nat /\ eof c' = true
           /\ nextByte c' = output_len).
Proof.
  intros Hb Hc. rewrite Read_stream by assumption.
  pose proof (stream_inv (length p) c Hb Hc) as Hi.
  destruct (stream (length p) c) as [[ks c'] ex].
  destruct Hi as (_ & _ & Hle & Hf & Ht).
  exists c', (ks ++ drop (length ks) p), (length ks), (if ex then Some EOF else None).
  split; [reflexivity|]. split; [exact Hle|].
  split; [rewrite length_app, length_drop; lia|].
  split; [rewrite drop_app_length; reflexivity|].
  destruct ex.
  - right. destruct (Ht eq_refl) as (? & ? & ?). auto.
  - left. auto.
Qed.

(** A request is served like its first [a] bytes followed, unless those
    ended the stream, by the rest. *)
Lemma Read_split (c : Cipher) (p : list Z) (a : nat) :
  buffer_ok c -> cursor_ok c -> (a <= length p)%nat ->
  Read c p =
    let '(c1, q1, r1) := Read c (take a p) in
    match r1 with
    | Done (_, None) =>
      let '(c2, q2, r2) := Read c1 (drop a p) in
      (c2, q1 ++ q2,
       match r2 with
       | Done (m, e) => Done (Z.of_nat a + m, e)
       | Panicked x => Panicked x
       end)
    | _ => (c1, q1 ++ drop a p, r1)
    end.
Proof.
  intros Hb Hc Ha.
  rewrite (Read_stream c p), (Read_stream c (take a p)) by assumption.
  rewrite length_take, Nat.min_l by exact Ha.
  replace (length p) with (a + (length p - a))%nat at 1 by lia.
  rewrite stream_app.
  pose proof (stream_inv a c Hb Hc) as Hi.
  destruct (stream a c) as [[ks1 c1] ex1].
  destruct Hi as (Hb1 & Hc1 & Hle & Hf & Ht).
  destruct ex1.
  - destruct (Ht eq_refl) as (_ & _ & Hlt).
    rewrite <- app_assoc. do 2 f_equal.
    rewrite <- (take_drop a p) at 1.
    rewrite drop_app_le by (rewrite length_take; lia). reflexivity.
  - specialize (Hf eq_refl).
    rewrite (Read_stream c1) by assumption.
    rewrite length_drop.
    destruct (stream (length p - a) c1) as [[ks2 c2] ex2].
    rewrite (drop_ge (take a p)) by (rewrite length_take; lia).
    rewrite app_nil_r, length_app, drop_drop, Hf, <- app_assoc.
    rewrite Nat2Z.inj_add. reflexivity.
Qed.

End ReadFacts.

(** C6, as the code has it.  [Read] serves the bytes of the output buffer
    from the cursor on, generates a block each time the buffer is used up,
    and, when a generation fails on the exhausted keystream, stops and
    returns the number of bytes written with [io.EOF] (never a panic,
    never another error), leaving the rest of the buffer as it was.  Once
    the exhausted flag is set and the 64 bytes of the final block have
    been served, a further non-empty [Read] returns [(0, io.EOF)] and
    changes nothing. *)
Theorem Read_serves_keystream (c : Cipher) (p : list Z) :
  buffer_ok c -> cursor_ok c ->
  (nextByte c + Z.of_nat (length p) <= output_len ->
   Read c p =
     (set_nextByte c (nextByte c + Z.of_nat (length p)),
      take (length p) (drop (Z.to_nat (nextByte c)) (output c)),
      Done (Z.of_nat (length p), None)))
  /\ (nextByte c = output_len -> eof c = false -> p <> [] ->
      Read c p = Read (next c).1 p)
  /\ (forall a, (a <= length p)%nat ->
      Read c p =
        let '(c1, q1, r1) := Read c (take a p) in
        match r1 with
        | Done (_, None) =>
          let '(c2, q2, r2) := Read c1 (drop a p) in
          (c2, q1 ++ q2,
           match r2 with
           | Done (m, e) => Done (Z.of_nat a + m, e)
           | Panicked x => Panicked x
           end)
        | _ => (c1, q1 ++ drop a p, r1)
        end)
  /\ (exists c' p' n err,
      Read c p = (c', p', Done (Z.of_nat n, err))
      /\ (n <= length p)%nat /\ length p' = length p /\ drop n p' = drop n p
      /\ (err = None /\ n = length p
          \/ err = Some EOF /\ (n < length p)%nat /\ eof c' = true
             /\ nextByte c' = output_len))
  /\ (nextByte c = output_len -> eof c = true -> p <> [] ->
      Read c p = (c, p, Done (0, Some EOF))).
Proof.
  intros Hb Hc.
  split; [intros H; apply Read_drain; [exact Hb|apply Hc|exact H]|].
  split; [apply Read_regenerate; exact Hb|].
  split; [intros a Ha; apply Read_split; assumption|].
  split; [apply Read_outcome; assumption|].
  apply Read_exhausted; exact Hb.
Qed.

Lemma Read_serves_keystream_witness :
  (buffer_ok zero_Cipher /\ cursor_ok zero_Cipher
   /\ nextByte zero_Cipher + Z.of_nat (length [7; 7]) <= output_len
   /\ Read zero_Cipher [7; 7] =
       (set_nextByte zero_Cipher (nextByte zero_Cipher + Z.of_nat (length [7; 7])),
        take (length [7; 7]) (drop (Z.to_nat (nextByte zero_Cipher)) (output zero_Cipher)),
        Done (Z.of_nat (length [7; 7]), None)))
  /\ (let c := initial zero_key zero_iv 20 in
      buffer_ok c /\ cursor_ok c /\ nextByte c = output_len /\ eof c = false
      /\ Read c [7; 7] = Read (next c).1 [7; 7])
  /\ (let c := exhausted_cipher in
      buffer_ok c /\ cursor_ok c /\ nextByte c = output_len /\ eof c = true
      /\ Read c [7; 7] = (c, [7; 7], Done (0, Some EOF))).
Proof.
  assert (Hne : [7; 7] <> @nil Z) by discriminate.
  split; [|split].
  - assert (Hb : buffer_ok zero_Cipher) by reflexivity.
    assert (Hc : cursor_ok zero_Cipher) by (unfold cursor_ok, output_len; cbn; lia).
    assert (Hk : nextByte zero_Cipher + Z.of_nat (length [7; 7]) <= output_len)
      by (unfold output_len; cbn; lia).
    exact (conj Hb (conj Hc (conj Hk
             (proj1 (Read_serves_keystream zero_Cipher [7; 7] Hb Hc) Hk)))).
  - intros c.
    assert (Hb : buffer_ok c) by reflexivity.
    assert (Hc : cursor_ok c) by (unfold cursor_ok, output_len; cbn; lia).
    assert (Hn : nextByte c = output_len) by reflexivity.
    assert (He : eof c = false) by reflexivity.
    exact (conj Hb (conj Hc (conj Hn (conj He
             (proj1 (proj2 (Read_serves_keystream c [7; 7] Hb Hc)) Hn He Hne))))).
  - intros c.
    assert (Hb : buffer_ok c) by reflexivity.
    assert (Hc : cursor_ok c) by (unfold cursor_ok, output_len; cbn; lia).
    assert (Hn : nextByte c = output_len) by reflexivity.
    assert (He : eof c = true) by reflexivity.
    exact (conj Hb (conj Hc (conj Hn (conj He
             (proj2 (proj2 (proj2 (proj2 (Read_serves_keystream c [7; 7] Hb Hc))))
                Hn He Hne))))).
Defined.

(** C6, as stated, fails.  The [Read] of one byte that generates the
    final block sets the exhausted flag; the [Read] after it still
    returns a byte of that block and no [io.EOF]. *)
Lemma Read_after_final_generation :
  let c1 := (Read last_block_cipher [0]).1.1 in
  eof c1 = true
  /\ (Read c1 [0]).2 = Done (1, None)
  /\ (Read c1 [0]).2 <> Done (0, Some EOF).
Proof.
  vm_compute. split; [reflexivity|]. split; [reflexivity|].
  intros H. discriminate H.
Qed.

(** ** [XORKeyStream] *)

Section XorFacts.

Lemma XORKeyStream_loop_app (a b : nat) (c : Cipher) (dst src : list Z) (i : nat) :
  XORKeyStream_loop (a + b) c dst src i =
    let '(c1, d1, r1) := XORKeyStream_loop a c dst src i in
    match r1 with
    | Done _ => XORKeyStream_loop b c1 d1 src (i + a)
    | Panicked x => (c1, d1, Panicked x)
    end.
Proof.
  revert c dst i. induction a as [|a IH]; intros c dst i;
    cbn [XORKeyStream_loop Nat.add].
  - rewrite Nat.add_0_r. reflexivity.
  - destruct (refill c) as [c1 [e|]]; [reflexivity|].
    destruct (index src (Z.of_nat i)); [|reflexivity].
    destruct (index (output c1) (nextByte c1)); [|reflexivity].
    rewrite IH. rewrite Nat.add_succ_r. reflexivity.
Qed.

(** A normal return means the source covered the whole destination. *)
Lemma XORKeyStream_loop_done (todo : nat) (c : Cipher) (dst src : list Z) (i : nat) :
  (XORKeyStream_loop todo c dst src i).2 = Done tt ->
  todo = 0%nat \/ (i + todo <= length src)%nat.
Proof.
  revert c dst i. induction todo as [|todo IH]; intros c dst i;
    cbn [XORKeyStream_loop]; [auto|].
  destruct (refill c) as [c1 [e|]]; [discriminate|].
  destruct (le_lt_dec (length src) i) as [Hout|Hin].
  - rewrite index_src_out by assumption. discriminate.
  - rewrite index_src by assumption.
    destruct (index (output c1) (nextByte c1)); [|discriminate].
    intros H. apply IH in H. right. lia.
Qed.

End XorFacts.

(** C7.  When the keystream is exhausted during [XORKeyStream], that is
    when a [Read] of as many bytes would have ended in [io.EOF], the call
    does not return: it panics with the error of [next], which is not
    [io.EOF].  A call that returns normally has XORed every byte of the
    destination with the keystream a [Read] would have delivered. *)
Theorem XORKeyStream_exhaustion_panics (c : Cipher) (dst src : list Z) :
  buffer_ok c -> cursor_ok c ->
  (forall n, (length dst <= length src)%nat ->
     (Read c dst).2 = Done (n, Some EOF) ->
     (XORKeyStream c dst src).2 = Panicked (PanicError ErrExhaustedKeystream))
  /\ (nextByte c = output_len -> eof c = true -> dst <> [] ->
      XORKeyStream c dst src = (c, dst, Panicked (PanicError ErrExhaustedKeystream)))
  /\ ((XORKeyStream c dst src).2 = Done tt ->
      (length dst <= length src)%nat
      /\ (Read c dst).2 = Done (Z.of_nat (length dst), None)
      /\ (XORKeyStream c dst src).1.2 = zip_with Z.lxor src (Read c dst).1.2
      /\ (XORKeyStream c dst src).1.1 = (Read c dst).1.1)
  /\ (forall x, (XORKeyStream c dst src).2 = Panicked x -> x <> PanicError EOF).
Proof.
  intros Hb Hc.
  pose proof (stream_inv (length dst) c Hb Hc) as Hi.
  split; [|split; [|split]].
  - intros n Hl. rewrite Read_stream, XORKeyStream_stream by assumption.
    destruct (stream _ _) as [[ks c'] [|]]; [reflexivity|discriminate].
  - intros Hn He Hd. unfold XORKeyStream.
    destruct dst as [|d dst]; [congruence|]. cbn [length XORKeyStream_loop].
    rewrite refill_exhausted by (assumption || lia). reflexivity.
  - intros Hdone.
    assert (Hl : (length dst <= length src)%nat).
    { apply XORKeyStream_loop_done in Hdone. lia. }
    revert Hdone. rewrite Read_stream, XORKeyStream_stream by assumption.
    destruct (stream _ _) as [[ks c'] [|]]; [discriminate|]. intros _.
    destruct Hi as (_ & _ & _ & Hf & _). specialize (Hf eq_refl).
    cbn [fst snd]. rewrite Hf, drop_all, !app_nil_r.
    split; [exact Hl|]. split; [reflexivity|]. split; reflexivity.
  - intros x Hx.
    apply XORKeyStream_loop_panics in Hx as [->|(j & _ & _ & ->)];
      [discriminate|discriminate|assumption|assumption].
Qed.

Lemma XORKeyStream_exhaustion_panics_witness :
  let c := exhausted_cipher in
  buffer_ok c /\ cursor_ok c /\ nextByte c = output_len /\ eof c = true
  /\ XORKeyStream c [1; 2] [3; 4] = (c, [1; 2], Panicked (PanicError ErrExhaustedKeystream)).
Proof.
  intros c.
  assert (Hb : buffer_ok c) by reflexivity.
  assert (Hc : cursor_ok c) by (unfold cursor_ok, output_len; cbn; lia).
  assert (Hn : nextByte c = output_len) by reflexivity.
  assert (He : eof c = true) by reflexivity.
  assert (Hne : [1; 2] <> @nil Z) by discriminate.
  exact (conj Hb (conj Hc (conj Hn (conj He
           (proj1 (proj2 (XORKeyStream_exhaustion_panics c [1; 2] [3; 4] Hb Hc))
              Hn He Hne))))).
Defined.

(** C8, as the code has it.  [XORKeyStream] compares no lengths and
    returns no error.  It runs over the destination: a source at least
    as long has its first [len(dst)] bytes XORed and the rest ignored; a
    shorter source has all its bytes XORed, after which the read of
    [src[len(src)]] panics with the runtime's index error, the rest of the
    destination untouched. *)
Theorem XORKeyStream_unchecked_lengths (c : Cipher) (dst src : list Z) :
  buffer_ok c -> cursor_ok c ->
  ((length dst <= length src)%nat ->
   XORKeyStream c dst src = XORKeyStream c dst (take (length dst) src))
  /\ ((length dst <= length src)%nat ->
      (Read c dst).2 = Done (Z.of_nat (length dst), None) ->
      (XORKeyStream c dst src).2 = Done tt
      /\ (XORKeyStream c dst src).1.2 = zip_with Z.lxor src (Read c dst).1.2)
  /\ ((length src < length dst)%nat ->
      (Read c (take (S (length src)) dst)).2 = Done (Z.of_nat (S (length src)), None) ->
      (XORKeyStream c dst src).2
        = Panicked (IndexOutOfRange (Z.of_nat (length src)) (Z.of_nat (length src)))
      /\ (XORKeyStream c dst src).1.2
         = zip_with Z.lxor src (Read c (take (length src) dst)).1.2
             ++ drop (length src) dst).
Proof.
  intros Hb Hc. split; [|split].
  - intros Hl.
    rewrite (XORKeyStream_stream c dst src) by assumption.
    rewrite XORKeyStream_stream by (assumption || (rewrite length_take; lia)).
    pose proof (stream_inv (length dst) c Hb Hc) as Hi.
    destruct (stream _ _) as [[ks c'] ex]. destruct Hi as (_ & _ & Hle & _).
    rewrite zip_with_take_l' by lia. reflexivity.
  - intros Hl. rewrite Read_stream, XORKeyStream_stream by assumption.
    pose proof (stream_inv (length dst) c Hb Hc) as Hi.
    destruct (stream _ _) as [[ks c'] [|]]; [discriminate|]. intros _.
    destruct Hi as (_ & _ & _ & Hf & _). specialize (Hf eq_refl).
    cbn [fst snd]. rewrite Hf, drop_all, !app_nil_r. split; reflexivity.
  - intros Hl.
    rewrite !Read_stream by assumption.
    rewrite !length_take, (Nat.min_l (S _)), (Nat.min_l (length src)) by lia.
    replace (S (length src)) with (length src + 1)%nat by lia.
    rewrite stream_app.
    unfold XORKeyStream.
    replace (length dst) with (length src + S (length dst - S (length src)))%nat at 1 2 by lia.
    rewrite XORKeyStream_loop_app.
    rewrite XORKeyStream_loop_stream by (assumption || lia).
    pose proof (stream_inv (length src) c Hb Hc) as Hi.
    destruct (stream (length src) c) as [[ks c1] [|]]; [discriminate|].
    destruct Hi as (Hb1 & Hc1 & _ & Hf & _). specialize (Hf eq_refl).
    cbn [stream XORKeyStream_loop].
    destruct (refill c1) as [c2 [e|]]; [discriminate|].
    intros _.
    rewrite index_src_out by lia.
    cbn [fst snd Nat.add take drop app].
    rewrite Hf.
    rewrite (drop_ge (take (length src) dst)) by (rewrite length_take; lia).
    rewrite app_nil_r.
    split; [reflexivity|]. reflexivity.
Qed.

Lemma XORKeyStream_unchecked_lengths_witness :
  let c := zero_Cipher in
  buffer_ok c /\ cursor_ok c
  /\ ((length [9] <= length [1; 2])%nat
      /\ (Read c [9]).2 = Done (Z.of_nat (length [9]), None)
      /\ (XORKeyStream c [9] [1; 2]).2 = Done tt)
  /\ ((length [1] < length [9; 9])%nat
      /\ (Read c (take (S (length [1])) [9; 9])).2 = Done (Z.of_nat (S (length [1])), None)
      /\ (XORKeyStream c [9; 9] [1]).2
         = Panicked (IndexOutOfRange (Z.of_nat (length [1])) (Z.of_nat (length [1])))).
Proof.
  intros c.
  assert (Hb : buffer_ok c) by reflexivity.
  assert (Hc : cursor_ok c) by (unfold cursor_ok, output_len; cbn; lia).
  assert (H1 : (length [9] <= length [1; 2])%nat) by (cbn; lia).
  assert (H2 : (Read c [9]).2 = Done (Z.of_nat (length [9]), None)) by reflexivity.
  assert (H3 : (length [1] < length [9; 9])%nat) by (cbn; lia).
  assert (H4 : (Read c (take (S (length [1])) [9; 9])).2
               = Done (Z.of_nat (S (length [1])), None)) by reflexivity.
  exact (conj Hb (conj Hc
          (conj (conj H1 (conj H2
                   (proj1 (proj1 (proj2 (XORKeyStream_unchecked_lengths c [9] [1; 2] Hb Hc))
                             H1 H2))))
                (conj H3 (conj H4
                   (proj1 (proj2 (proj2 (XORKeyStream_unchecked_lengths c [9; 9] [1] Hb Hc))
                             H3 H4))))))).
Defined.

(** C8, as stated, fails: given one destination byte and two source
    bytes [XORKeyStream] returns normally, having XORed the first source
    byte with the first keystream byte [0x76]. *)
Lemma XORKeyStream_mismatch_processed :
  let c := initial zero_key zero_iv 20 in
  (XORKeyStream c [0] [1; 2]).2 = Done tt
  /\ (XORKeyStream c [0] [1; 2]).1.2 = [Z.lxor 1 0x76].
Proof. vm_compute. split; reflexivity. Qed.

(** ** Seeking *)

Section Seeking.

Lemma same_key_refl (c : Cipher) : wf c -> same_key c c.
Proof. intros ([Hl _] & Hb & _). repeat split; assumption. Qed.

Lemma same_key_set_nextByte (c0 c : Cipher) (v : Z) :
  same_key c0 c -> same_key c0 (set_nextByte c v).
Proof. intros H. exact H. Qed.

Lemma same_key_next (c0 c : Cipher) : same_key c0 c -> same_key c0 (next c).1.
Proof.
  intros (Hr & Ho & Hi & Hk).
  destruct (eof c) eqn:He.
  - rewrite next_exhausted by assumption. repeat split; assumption.
  - split; [rewrite next_rounds; exact Hr|].
    split; [rewrite next_output_length; exact Ho|].
    rewrite next_input by assumption.
    split; [rewrite length_bump; exact Hi|].
    intros i H12 H13. rewrite bump_other by assumption. apply Hk; assumption.
Qed.

Lemma same_key_refill (c0 c : Cipher) : same_key c0 c -> same_key c0 (refill c).1.
Proof.
  intros H. unfold refill.
  destruct (nextByte c >=? output_len); [apply same_key_next, H|exact H].
Qed.

Lemma same_key_Read_loop (c0 : Cipher) (todo : nat) (c : Cipher) (p : list Z) (i : nat) :
  same_key c0 c -> same_key c0 (Read_loop todo c p i).1.1.
Proof.
  revert c p i. induction todo as [|todo IH]; intros c p i H; cbn [Read_loop].
  - exact H.
  - pose proof (same_key_refill c0 c H) as H1.
    destruct (refill c) as [c1 [e|]]; [exact H1|].
    destruct (index (output c1) (nextByte c1)); [|exact H1].
    apply IH. exact H1.
Qed.

Lemma same_key_XORKeyStream_loop (c0 : Cipher) (todo : nat) (c : Cipher)
      (dst src : list Z) (i : nat) :
  same_key c0 c -> same_key c0 (XORKeyStream_loop todo c dst src i).1.1.
Proof.
  revert c dst i. induction todo as [|todo IH]; intros c dst i H;
    cbn [XORKeyStream_loop].
  - exact H.
  - pose proof (same_key_refill c0 c H) as H1.
    destruct (refill c) as [c1 [e|]]; [exact H1|].
    destruct (index src (Z.of_nat i)); [|exact H1].
    destruct (index (output c1) (nextByte c1)); [|exact H1].
    apply IH. exact H1.
Qed.

Lemma same_key_Seek (c0 c : Cipher) (n : Z) : same_key c0 c -> same_key c0 (Seek c n).
Proof.
  intros (Hr & Ho & Hi & Hk). unfold Seek. apply same_key_next.
  split; [exact Hr|]. split; [exact Ho|].
  cbn [set_eof set_input input].
  split; [rewrite !length_insert; exact Hi|].
  intros i H12 H13. rewrite !list_lookup_insert_ne by congruence.
  apply Hk; assumption.
Qed.

Lemma same_key_perform (c0 c : Cipher) (k : call) :
  same_key c0 c -> same_key c0 (perform c k).1.
Proof.
  intros H. destruct k as [p|dst src|n]; cbn [perform].
  - pose proof (same_key_Read_loop c0 (length p) c p 0 H) as H1.
    unfold Read. destruct (Read_loop _ _ _ _) as [[c1 p1] r1]. exact H1.
  - pose proof (same_key_XORKeyStream_loop c0 (length dst) c dst src 0 H) as H1.
    unfold XORKeyStream. destruct (XORKeyStream_loop _ _ _ _ _) as [[c1 d1] r1]. exact H1.
  - apply same_key_Seek, H.
Qed.

Lemma same_key_run (c0 c : Cipher) (ks : list call) :
  same_key c0 c -> same_key c0 (run c ks).1.
Proof.
  revert c. induction ks as [|k ks IH]; intros c H; cbn [run]; [exact H|].
  pose proof (same_key_perform c0 c k H) as H1.
  destruct (perform c k) as [c1 o].
  specialize (IH c1 H1). destruct (run c1 ks) as [c2 os]. exact IH.
Qed.

(** A block depends on the words, the round count and nothing else. *)
Lemma next_congr (c c' : Cipher) :
  input c = input c' -> rounds c = rounds c' ->
  eof c = false -> eof c' = false ->
  length (input c) = 16%nat ->
  length (output c) = 64%nat -> length (output c') = 64%nat ->
  next c = next c'.
Proof.
  intros Hi Hr He He' Hl Ho Ho'.
  rewrite (next_shape c), (next_shape c') by (assumption || congruence).
  rewrite Hi, Hr. reflexivity.
Qed.

Lemma Seek_same_key (c0 c : Cipher) (n : Z) :
  same_key c0 c -> same_key c0 c0 -> Seek c n = Seek c0 n.
Proof.
  intros (Hr & Ho & Hi & Hk) (_ & Ho0 & Hi0 & _). unfold Seek. f_equal.
  apply next_congr; cbn [set_eof set_input input output rounds eof];
    rewrite ?length_insert; try (assumption || reflexivity).
  apply list_eq. intros i.
  destruct (decide (i = 13%nat)) as [->|H13].
  { rewrite !list_lookup_insert_eq by (rewrite length_insert; lia). reflexivity. }
  rewrite !(list_lookup_insert_ne _ 13) by congruence.
  destruct (decide (i = 12%nat)) as [->|H12].
  { rewrite !list_lookup_insert_eq by lia. reflexivity. }
  rewrite !list_lookup_insert_ne by congruence.
  apply Hk; assumption.
Qed.

End Seeking.

Lemma New_returns (key iv : list Z) (r : Z) (c : Cipher) :
  New key iv r = Done c ->
  c = initial key iv r /\ (32 <= length key)%nat /\ (8 <= length iv)%nat.
Proof.
  intros H.
  destruct (le_lt_dec 32 (length key)) as [Hk|Hk];
    [|rewrite New_short_key in H by assumption; discriminate H].
  destruct (le_lt_dec 8 (length iv)) as [Hi|Hi];
    [|rewrite New_short_iv in H by assumption; discriminate H].
  rewrite New_ok in H by assumption. injection H as <-. auto.
Qed.

Lemma same_key_initial (key iv : list Z) (r : Z) :
  same_key (initial key iv r) (initial key iv r).
Proof. repeat split. Qed.

Lemma Seek_0_initial (key iv : list Z) (r : Z) :
  Seek (initial key iv r) 0 = (next (initial key iv r)).1.
Proof. reflexivity. Qed.

(** C5.  For every block index [n], whatever calls ([Read],
    [XORKeyStream], [Seek], with any arguments and however they ended) a
    cipher has been through since its construction, [Seek(n)] leaves it in
    exactly the state [Seek(n)] leaves a fresh cipher of the same key,
    nonce and round count in, so that every later [Read] returns the same
    bytes; and what a fresh cipher delivers is what it delivers after
    [Seek(0)]. *)
Theorem Seek_forgets_history
        (key iv : list Z) (r : Z) (c0 fresh : Cipher) (history : list call)
        (n : Z) (p : list Z) :
  New key iv r = Done c0 -> New key iv r = Done fresh ->
  Seek (run c0 history).1 n = Seek fresh n
  /\ Read (Seek (run c0 history).1 n) p = Read (Seek fresh n) p
  /\ (Read (Seek fresh 0) p).1.2 = (Read fresh p).1.2
  /\ (Read (Seek fresh 0) p).2 = (Read fresh p).2
  /\ (p <> [] -> Read (Seek fresh 0) p = Read fresh p).
Proof.
  intros H0 Hf.
  apply New_returns in H0 as (-> & _ & _).
  apply New_returns in Hf as (-> & _ & _).
  assert (Hs : Seek (run (initial key iv r) history).1 n = Seek (initial key iv r) n).
  { apply Seek_same_key; [apply same_key_run|]; apply same_key_initial. }
  split; [exact Hs|]. split; [rewrite Hs; reflexivity|].
  assert (Hp : p <> [] -> Read (Seek (initial key iv r) 0) p = Read (initial key iv r) p).
  { intros Hne. rewrite Seek_0_initial. symmetry.
    apply Read_regenerate; [reflexivity|reflexivity|reflexivity|exact Hne]. }
  destruct p as [|x p].
  - split; [reflexivity|]. split; [reflexivity|]. intros H. congruence.
  - rewrite Hp by discriminate. auto.
Qed.

Lemma Seek_forgets_history_witness :
  let c0 := initial zero_key zero_iv 20 in
  let history := [CallRead [0; 0; 0]; CallSeek 7; CallXORKeyStream [1] [2]] in
  New zero_key zero_iv 20 = Done c0
  /\ Seek (run c0 history).1 3 = Seek c0 3.
Proof.
  intros c0 history.
  assert (H : New zero_key zero_iv 20 = Done c0) by reflexivity.
  exact (conj H (proj1 (Seek_forgets_history zero_key zero_iv 20 c0 c0 history 3 [0; 0] H H))).
Defined.

(** ** The parity of the round count *)

Section Parity.

Variable r' : Z.

(** Two ciphers that differ in [rounds] only, by round counts of equally
    many passes, generate the same blocks. *)
Lemma next_set_rounds (c : Cipher) :
  passes (rounds c) = passes r' ->
  next (set_rounds c r') = (set_rounds (next c).1 r', (next c).2).
Proof.
  intros H. unfold next. cbn [set_rounds eof input output rounds].
  destruct (eof c); [reflexivity|].
  rewrite !rounds_loop_iter, H.
  destruct (Nat.iter _ _ _). reflexivity.
Qed.

Lemma refill_set_rounds (c : Cipher) :
  passes (rounds c) = passes r' ->
  refill (set_rounds c r') = (set_rounds (refill c).1 r', (refill c).2).
Proof.
  intros H. unfold refill. cbn [set_rounds nextByte].
  destruct (nextByte c >=? output_len); [apply next_set_rounds, H|reflexivity].
Qed.

Lemma refill_rounds (c : Cipher) : rounds (refill c).1 = rounds c.
Proof.
  unfold refill. destruct (nextByte c >=? output_len); [apply next_rounds|reflexivity].
Qed.

Lemma Read_loop_set_rounds (todo : nat) (c : Cipher) (p : list Z) (i : nat) :
  passes (rounds c) = passes r' ->
  Read_loop todo (set_rounds c r') p i =
    let '(c', p', res) := Read_loop todo c p i in (set_rounds c' r', p', res).
Proof.
  revert c p i. induction todo as [|todo IH]; intros c p i H; cbn [Read_loop];
    [reflexivity|].
  rewrite refill_set_rounds by exact H.
  pose proof (refill_rounds c) as Hr.
  destruct (refill c) as [c1 [e|]]; cbn [fst snd] in *; [reflexivity|].
  cbn [set_rounds output nextByte].
  destruct (index (output c1) (nextByte c1)); [|reflexivity].
  apply (IH (set_nextByte c1 (nextByte c1 + 1))).
  cbn [set_nextByte rounds]. rewrite Hr. exact H.
Qed.

Lemma XORKeyStream_loop_set_rounds (todo : nat) (c : Cipher) (dst src : list Z) (i : nat) :
  passes (rounds c) = passes r' ->
  XORKeyStream_loop todo (set_rounds c r') dst src i =
    let '(c', d', res) := XORKeyStream_loop todo c dst src i in
    (set_rounds c' r', d', res).
Proof.
  revert c dst i. induction todo as [|todo IH]; intros c dst i H;
    cbn [XORKeyStream_loop]; [reflexivity|].
  rewrite refill_set_rounds by exact H.
  pose proof (refill_rounds c) as Hr.
  destruct (refill c) as [c1 [e|]]; cbn [fst snd] in *; [reflexivity|].
  destruct (index src (Z.of_nat i)); [|reflexivity].
  cbn [set_rounds output nextByte].
  destruct (index (output c1) (nextByte c1)); [|reflexivity].
  apply (IH (set_nextByte c1 (nextByte c1 + 1))).
  cbn [set_nextByte rounds]. rewrite Hr. exact H.
Qed.

Lemma Seek_set_rounds (c : Cipher) (n : Z) :
  passes (rounds c) = passes r' ->
  Seek (set_rounds c r') n = set_rounds (Seek c n) r'.
Proof.
  intros H. unfold Seek.
  change (set_eof (set_input (set_input (set_rounds c r') 12 (U32.wrap n)) 13
                     (U32.wrap (Z.shiftr n 32))) false)
    with (set_rounds (set_eof (set_input (set_input c 12 (U32.wrap n)) 13
                                 (U32.wrap (Z.shiftr n 32))) false) r').
  rewrite next_set_rounds by exact H. reflexivity.
Qed.

Lemma Read_loop_rounds (todo : nat) (c : Cipher) (p : list Z) (i : nat) :
  rounds (Read_loop todo c p i).1.1 = rounds c.
Proof.
  revert c p i. induction todo as [|todo IH]; intros c p i; cbn [Read_loop];
    [reflexivity|].
  pose proof (refill_rounds c) as Hr.
  destruct (refill c) as [c1 [e|]]; cbn [fst snd] in *; [exact Hr|].
  destruct (index (output c1) (nextByte c1)); [|exact Hr].
  rewrite IH. exact Hr.
Qed.

Lemma XORKeyStream_loop_rounds (todo : nat) (c : Cipher) (dst src : list Z) (i : nat) :
  rounds (XORKeyStream_loop todo c dst src i).1.1 = rounds c.
Proof.
  revert c dst i. induction todo as [|todo IH]; intros c dst i;
    cbn [XORKeyStream_loop]; [reflexivity|].
  pose proof (refill_rounds c) as Hr.
  destruct (refill c) as [c1 [e|]]; cbn [fst snd] in *; [exact Hr|].
  destruct (index src (Z.of_nat i)); [|exact Hr].
  destruct (index (output c1) (nextByte c1)); [|exact Hr].
  rewrite IH. exact Hr.
Qed.

Lemma perform_set_rounds (c : Cipher) (k : call) :
  passes (rounds c) = passes r' ->
  perform (set_rounds c r') k = (set_rounds (perform c k).1 r', (perform c k).2)
  /\ rounds (perform c k).1 = rounds c.
Proof.
  intros H. destruct k as [p|dst src|n]; cbn [perform].
  - unfold Read. rewrite Read_loop_set_rounds by exact H.
    pose proof (Read_loop_rounds (length p) c p 0) as Hr.
    destruct (Read_loop _ _ _ _) as [[c1 p1] r1]. auto.
  - unfold XORKeyStream. rewrite XORKeyStream_loop_set_rounds by exact H.
    pose proof (XORKeyStream_loop_rounds (length dst) c dst src 0) as Hr.
    destruct (XORKeyStream_loop _ _ _ _ _) as [[c1 d1] r1]. auto.
  - rewrite Seek_set_rounds by exact H. split; [reflexivity|].
    cbn [fst]. unfold Seek. rewrite next_rounds. reflexivity.
Qed.

Lemma run_set_rounds (c : Cipher) (ks : list call) :
  passes (rounds c) = passes r' ->
  (run (set_rounds c r') ks).2 = (run c ks).2.
Proof.
  revert c. induction ks as [|k ks IH]; intros c H; cbn [run]; [reflexivity|].
  destruct (perform_set_rounds c k H) as [-> Hr].
  destruct (perform c k) as [c1 o]. cbn [fst snd] in *.
  assert (H1 : passes (rounds c1) = passes r') by (rewrite Hr; exact H).
  specialize (IH c1 H1).
  destruct (run (set_rounds c1 r') ks) as [c2 os].
  destruct (run c1 ks) as [c3 os']. cbn [snd] in *. rewrite IH. reflexivity.
Qed.

End Parity.

(** C10.  For an odd round count [r >= 1] the loop of [next] makes
    [(r + 1) / 2] complete passes, each one the four column quarter
    rounds followed by the four diagonal quarter rounds, exactly as for
    [r + 1]; so ciphers constructed with [r] and with [r + 1] rounds are
    indistinguishable by any history of calls.  For a round count that is
    not positive the loop makes no pass, and the block is the state words
    each added to itself. *)
Theorem odd_rounds_round_up (r : Z) :
  1 <= r -> Z.odd r = true ->
  (forall v, rounds_loop r v = Nat.iter (Z.to_nat ((r + 1) / 2)) rounds_body v)
  /\ (forall v, rounds_loop (r + 1) v = rounds_loop r v)
  /\ (forall a b c1 d e f g h i j k l m n o p,
      rounds_body (Vars a b c1 d e f g h i j k l m n o p) =
        let '(a, e, i, m) := quarter a e i m in
        let '(b, f, j, n) := quarter b f j n in
        let '(c1, g, k, o) := quarter c1 g k o in
        let '(d, h, l, p) := quarter d h l p in
        let '(a, f, k, p) := quarter a f k p in
        let '(b, g, l, m) := quarter b g l m in
        let '(c1, h, i, n) := quarter c1 h i n in
        let '(d, e, j, o) := quarter d e j o in
        Vars a b c1 d e f g h i j k l m n o p)
  /\ (forall key iv c1 c2 history,
      New key iv r = Done c1 -> New key iv (r + 1) = Done c2 ->
      (run c2 history).2 = (run c1 history).2)
  /\ (forall z v, z <= 0 -> rounds_loop z v = v)
  /\ (forall c, rounds c <= 0 -> eof c = false ->
      length (input c) = 16%nat -> length (output c) = 64%nat ->
      output (next c).1 = mjoin (le_bytes <$> ((fun w => w +! w) <$> input c))).
Proof.
  intros Hr Ho.
  assert (Hp : passes r = passes (r + 1)) by (apply passes_odd; [lia|exact Ho]).
  split; [intros v; apply rounds_loop_iter|].
  split; [intros v; rewrite !rounds_loop_iter, Hp; reflexivity|].
  split; [exact rounds_body_quarters|].
  split.
  { intros key iv c1 c2 history H1 H2.
    apply New_returns in H1 as (-> & _ & _).
    apply New_returns in H2 as (-> & _ & _).
    apply (run_set_rounds (r + 1) (initial key iv r) history). exact Hp. }
  split.
  { intros z v Hz. rewrite rounds_loop_iter, passes_nonpos by exact Hz. reflexivity. }
  intros c Hz He Hi Hout.
  rewrite next_shape by assumption. cbn [fst output]. unfold block.
  rewrite rounds_loop_iter, passes_nonpos by exact Hz. cbn [Nat.iter nat_rect].
  rewrite vars_list_load by exact Hi.
  rewrite zip_with_diag. reflexivity.
Qed.

Lemma odd_rounds_round_up_witness :
  1 <= 7 /\ Z.odd 7 = true
  /\ (forall v, rounds_loop (7 + 1) v = rounds_loop 7 v).
Proof.
  assert (H1 : 1 <= 7) by lia.
  assert (H2 : Z.odd 7 = true) by reflexivity.
  exact (conj H1 (conj H2 (proj1 (proj2 (odd_rounds_round_up 7 H1 H2))))).
Defined.


(** * Further properties *)

(** ** The length of the keystream *)

Section Length.

Lemma remaining_nonneg (c : Cipher) : wf c -> 0 <= remaining c.
Proof.
  intros (Hw & _ & Hc). pose proof (counter_range c Hw) as Hr.
  unfold remaining, cursor_ok in *. destruct (eof c); lia.
Qed.

Lemma wf_served (c : Cipher) :
  wf c -> nextByte c < output_len -> wf (set_nextByte c (nextByte c + 1)).
Proof.
  intros (Hw & Hb & Hc) Hn. split; [exact Hw|]. split; [exact Hb|].
  unfold cursor_ok in *. cbn [set_nextByte nextByte]. lia.
Qed.

Lemma remaining_served (c : Cipher) :
  remaining (set_nextByte c (nextByte c + 1)) = remaining c - 1.
Proof. unfold remaining, counter. cbn [set_nextByte nextByte eof input]. lia. Qed.

(** Generating a block moves bytes from the blocks to come into the
    buffer: what remains is unchanged. *)
Lemma remaining_next (c : Cipher) :
  wf c -> nextByte c = output_len -> eof c = false ->
  remaining (next c).1 = remaining c.
Proof.
  intros (Hw & Hb & Hc) Hn He.
  pose proof (counter_range c Hw) as Hr.
  unfold remaining. rewrite next_nextByte, next_eof, next_counter by assumption.
  rewrite next_ctr_value, Hn, He by assumption. unfold output_len.
  destruct (Z.eq_dec (counter c + 1) (2 ^ 64)) as [E|E].
  - rewrite E, Z.mod_same by lia. cbn [Z.eqb]. lia.
  - rewrite Z.mod_small by lia.
    destruct (Z.eqb_spec (counter c + 1) 0); lia.
Qed.

Lemma stream_step (k : nat) (c : Cipher) :
  nextByte c < output_len ->
  stream (S k) c =
    let '(ks, c', ex) := stream k (set_nextByte c (nextByte c + 1)) in
    (output c !!! Z.to_nat (nextByte c) :: ks, c', ex).
Proof. intros H. cbn [stream]. rewrite refill_within by exact H. reflexivity. Qed.

Lemma stream_remaining (k : nat) (c : Cipher) :
  wf c ->
  let '(ks, c', ex) := stream k c in
  Z.of_nat (length ks) = Z.min (Z.of_nat k) (remaining c)
  /\ ex = (remaining c <? Z.of_nat k)
  /\ remaining c' = remaining c - Z.of_nat (length ks)
  /\ wf c'.
Proof.
  revert c. induction k as [|k IH]; intros c Hwf.
  - pose proof (remaining_nonneg c Hwf) as H0. cbn [stream length].
    split; [lia|]. split; [|split; [lia|exact Hwf]].
    symmetry. apply Z.ltb_ge. lia.
  - assert (Hstep : forall c1, wf c1 -> remaining c1 = remaining c ->
                nextByte c1 < output_len ->
                let '(ks, c', ex) := stream (S k) c1 in
                Z.of_nat (length ks) = Z.min (Z.of_nat (S k)) (remaining c)
                /\ ex = (remaining c <? Z.of_nat (S k))
                /\ remaining c' = remaining c - Z.of_nat (length ks)
                /\ wf c').
    { intros c1 Hwf1 Hrem Hn. rewrite stream_step by exact Hn.
      specialize (IH _ (wf_served c1 Hwf1 Hn)).
      rewrite remaining_served, Hrem in IH.
      pose proof (remaining_nonneg c1 Hwf1) as H0.
      assert (H1 : 1 <= remaining c).
      { rewrite <- Hrem. unfold remaining.
        destruct Hwf1 as (Hw & _ & _). pose proof (counter_range c1 Hw).
        destruct (eof c1); lia. }
      destruct (stream k _) as [[ks c'] ex].
      destruct IH as (Hl & He & Hr & Hw). cbn [length].
      split; [lia|]. split; [|split; [lia|exact Hw]].
      rewrite He.
      destruct (Z.ltb_spec (remaining c - 1) (Z.of_nat k));
        destruct (Z.ltb_spec (remaining c) (Z.of_nat (S k))); (reflexivity || lia). }
    destruct (Z_lt_le_dec (nextByte c) output_len) as [Hlt|Hge].
    + apply Hstep; [exact Hwf|reflexivity|exact Hlt].
    + assert (Hn : nextByte c = output_len)
        by (destruct Hwf as (_ & _ & Hc); unfold cursor_ok in Hc; lia).
      destruct (eof c) eqn:He.
      * rewrite stream_exhausted by (assumption || lia). cbn [length].
        assert (Hz : remaining c = 0) by (unfold remaining; rewrite Hn, He; lia).
        rewrite Hz. split; [lia|]. split; [|split; [lia|exact Hwf]].
        symmetry. apply Z.ltb_lt. lia.
      * rewrite stream_regenerate by (assumption || lia).
        apply Hstep.
        -- apply next_wf, Hwf.
        -- apply remaining_next; assumption.
        -- rewrite next_nextByte by assumption. unfold output_len. lia.
Qed.

End Length.

(** X1.  A [Read] of [k] bytes delivers [min(k, remaining)] bytes and
    returns [io.EOF] exactly when [k] exceeds what remains; a cipher just
    constructed has [2^70] bytes to give, the figure the comment on [Read]
    states. *)
Theorem Read_length (c : Cipher) (p : list Z) :
  wf c ->
  exists c' p' n err,
    Read c p = (c', p', Done (n, err))
    /\ n = Z.min (Z.of_nat (length p)) (remaining c)
    /\ err = (if remaining c <? Z.of_nat (length p) then Some EOF else None)
    /\ remaining c' = remaining c - n
    /\ wf c'
    /\ (forall key iv r c0, New key iv r = Done c0 -> remaining c0 = 2 ^ 70).
Proof.
  intros Hwf. destruct Hwf as (Hw & Hb & Hc) eqn:E. clear E.
  rewrite Read_stream by assumption.
  pose proof (stream_remaining (length p) c (conj Hw (conj Hb Hc))) as H.
  destruct (stream _ _) as [[ks c'] ex].
  destruct H as (Hl & He & Hr & Hwf').
  exists c', (ks ++ drop (length ks) p), (Z.of_nat (length ks)),
    (if ex then Some EOF else None).
  split; [reflexivity|]. split; [exact Hl|].
  split; [rewrite He; reflexivity|]. split; [exact Hr|].
  split; [exact Hwf'|]. intros key iv r c0 H0.
  apply New_returns in H0 as (-> & _ & _). reflexivity.
Qed.

Lemma Read_length_witness :
  wf (initial zero_key zero_iv 20)
  /\ exists c' p' n err,
      Read (initial zero_key zero_iv 20) [0; 0; 0] = (c', p', Done (n, err))
      /\ n = Z.min (Z.of_nat (length [0; 0; 0])) (remaining (initial zero_key zero_iv 20))
      /\ err = (if remaining (initial zero_key zero_iv 20) <? Z.of_nat (length [0; 0; 0])
                then Some EOF else None)
      /\ remaining c' = remaining (initial zero_key zero_iv 20) - n
      /\ wf c'
      /\ (forall key iv r c0, New key iv r = Done c0 -> remaining c0 = 2 ^ 70).
Proof.
  exact (conj (zero_initial_wf 20)
           (Read_length (initial zero_key zero_iv 20) [0; 0; 0] (zero_initial_wf 20))).
Defined.

(** ** Encrypting and decrypting *)

Section Xor.

Lemma lxor_twice (src ks : list Z) :
  length ks = length src ->
  zip_with Z.lxor (zip_with Z.lxor src ks) ks = src.
Proof.
  revert ks. induction src as [|x src IH]; intros [|k ks] H;
    try discriminate H; [reflexivity|].
  cbn [zip_with]. rewrite IH by (injection H; auto).
  rewrite Z.lxor_assoc, Z.lxor_nilpotent, Z.lxor_0_r. reflexivity.
Qed.

Lemma lxor_zeros (n : nat) (ks : list Z) :
  (length ks <= n)%nat -> zip_with Z.lxor (replicate n 0) ks = ks.
Proof.
  revert ks. induction n as [|n IH]; intros [|k ks] H; cbn in *;
    try reflexivity; try lia.
  rewrite IH by lia. reflexivity.
Qed.

End Xor.

(** X2.  Decryption undoes encryption: when [XORKeyStream] returns
    normally on a source, running it from the same cipher state on the
    bytes it produced gives the source back and leaves the cipher in the
    same state. *)
Theorem XORKeyStream_round_trip (c : Cipher) (src d1 d2 : list Z) :
  buffer_ok c -> cursor_ok c ->
  length d1 = length src -> length d2 = length src ->
  (XORKeyStream c d1 src).2 = Done tt ->
  XORKeyStream c d2 (XORKeyStream c d1 src).1.2
  = ((XORKeyStream c d1 src).1.1, src, Done tt).
Proof.
  intros Hb Hc H1 H2.
  rewrite (XORKeyStream_stream c d1 src) by (assumption || lia).
  pose proof (stream_inv (length d1) c Hb Hc) as Hi.
  destruct (stream (length d1) c) as [[ks c'] [|]] eqn:Hs; [discriminate|].
  intros _. destruct Hi as (_ & _ & _ & Hf & _). specialize (Hf eq_refl).
  cbn [fst snd]. rewrite Hf, drop_all, app_nil_r.
  rewrite XORKeyStream_stream by (assumption || (rewrite length_zip_with; lia)).
  replace (length d2) with (length d1) by lia. rewrite Hs.
  rewrite lxor_twice, drop_ge, app_nil_r by lia. reflexivity.
Qed.

Lemma XORKeyStream_round_trip_witness :
  let c := zero_Cipher in
  buffer_ok c /\ cursor_ok c
  /\ length [0; 0] = length [5; 6] /\ length [9; 9] = length [5; 6]
  /\ (XORKeyStream c [0; 0] [5; 6]).2 = Done tt
  /\ XORKeyStream c [9; 9] (XORKeyStream c [0; 0] [5; 6]).1.2
     = ((XORKeyStream c [0; 0] [5; 6]).1.1, [5; 6], Done tt).
Proof.
  intros c.
  assert (Hb : buffer_ok c) by reflexivity.
  assert (Hc : cursor_ok c) by (unfold cursor_ok, output_len; cbn; lia).
  assert (H1 : length [0; 0] = length [5; 6]) by reflexivity.
  assert (H2 : length [9; 9] = length [5; 6]) by reflexivity.
  assert (H3 : (XORKeyStream c [0; 0] [5; 6]).2 = Done tt) by reflexivity.
  exact (conj Hb (conj Hc (conj H1 (conj H2 (conj H3
           (XORKeyStream_round_trip c [5; 6] [0; 0] [9; 9] Hb Hc H1 H2 H3)))))).
Defined.

(** X3.  Over a source of zero bytes [XORKeyStream] writes the raw
    keystream: the destination and the cipher end up exactly as [Read]
    leaves them, also when the keystream runs out on the way. *)
Theorem XORKeyStream_zeros_is_Read (c : Cipher) (dst : list Z) :
  buffer_ok c -> cursor_ok c ->
  (XORKeyStream c dst (replicate (length dst) 0)).1 = (Read c dst).1.
Proof.
  intros Hb Hc.
  rewrite XORKeyStream_stream, Read_stream
    by (assumption || (rewrite length_replicate; lia)).
  pose proof (stream_inv (length dst) c Hb Hc) as Hi.
  destruct (stream _ _) as [[ks c'] ex]. destruct Hi as (_ & _ & Hle & _).
  cbn [fst]. rewrite lxor_zeros by exact Hle. reflexivity.
Qed.

Lemma XORKeyStream_zeros_is_Read_witness :
  let c := initial zero_key zero_iv 20 in
  buffer_ok c /\ cursor_ok c
  /\ (XORKeyStream c [7; 7; 7] (replicate (length [7; 7; 7]) 0)).1 = (Read c [7; 7; 7]).1.
Proof.
  intros c.
  assert (Hb : buffer_ok c) by reflexivity.
  assert (Hc : cursor_ok c) by (unfold cursor_ok, output_len; cbn; lia).
  exact (conj Hb (conj Hc (XORKeyStream_zeros_is_Read c [7; 7; 7] Hb Hc))).
Defined.

(** X4.  With a source at least as long as the destination,
    [XORKeyStream] panics exactly when the destination is longer than
    the keystream that remains; either way it advances the cipher as a
    [Read] of as many bytes does and keeps the length of the
    destination. *)
Theorem XORKeyStream_length (c : Cipher) (dst src : list Z) :
  wf c -> (length dst <= length src)%nat ->
  (XORKeyStream c dst src).2
    = (if remaining c <? Z.of_nat (length dst)
       then Panicked (PanicError ErrExhaustedKeystream) else Done tt)
  /\ (XORKeyStream c dst src).1.1 = (Read c dst).1.1
  /\ length (XORKeyStream c dst src).1.2 = length dst.
Proof.
  intros Hwf Hl. pose proof Hwf as (Hw & Hb & Hc).
  rewrite XORKeyStream_stream, Read_stream by assumption.
  pose proof (stream_remaining (length dst) c Hwf) as Hr.
  pose proof (stream_inv (length dst) c Hb Hc) as Hi.
  destruct (stream _ _) as [[ks c'] ex].
  destruct Hr as (_ & -> & _). destruct Hi as (_ & _ & Hle & _).
  cbn [fst snd]. split; [reflexivity|]. split; [reflexivity|].
  rewrite length_app, length_zip_with, length_drop. lia.
Qed.

Lemma XORKeyStream_length_witness :
  let c := exhausted_cipher in
  wf c /\ (length [1; 2] <= length [3; 4; 5])%nat
  /\ (XORKeyStream c [1; 2] [3; 4; 5]).2
     = (if remaining c <? Z.of_nat (length [1; 2])
        then Panicked (PanicError ErrExhaustedKeystream) else Done tt).
Proof.
  intros c.
  assert (Hwf : wf c).
  { split; [apply (zero_initial_wf 20)|]. split; [reflexivity|].
    unfold cursor_ok, output_len. cbn. lia. }
  assert (Hl : (length [1; 2] <= length [3; 4; 5])%nat) by (cbn; lia).
  exact (conj Hwf (conj Hl (proj1 (XORKeyStream_length c [1; 2] [3; 4; 5] Hwf Hl)))).
Defined.

(** X5.  Encrypting in pieces is encrypting at once: [XORKeyStream] on
    two buffers laid end to end does what two calls in a row do, the
    second on the cipher the first one left; if the first call panics the
    second buffer is left alone. *)
Theorem XORKeyStream_chunks (c : Cipher) (d1 d2 s1 s2 : list Z) :
  buffer_ok c -> cursor_ok c ->
  length d1 = length s1 -> (length d2 <= length s2)%nat ->
  XORKeyStream c (d1 ++ d2) (s1 ++ s2) =
    let '(c1, o1, r1) := XORKeyStream c d1 s1 in
    match r1 with
    | Done _ =>
      let '(c2, o2, r2) := XORKeyStream c1 d2 s2 in (c2, o1 ++ o2, r2)
    | Panicked x => (c1, o1 ++ d2, Panicked x)
    end.
Proof.
  intros Hb Hc H1 H2.
  rewrite (XORKeyStream_stream c (d1 ++ d2))
    by (assumption || (rewrite !length_app; lia)).
  rewrite (XORKeyStream_stream c d1) by (assumption || lia).
  rewrite length_app, stream_app.
  pose proof (stream_inv (length d1) c Hb Hc) as Hi.
  destruct (stream (length d1) c) as [[ks1 c1] [|]].
  - destruct Hi as (_ & _ & _ & _ & Ht). destruct (Ht eq_refl) as (_ & _ & Hlt).
    rewrite zip_with_app_l, (take_ge ks1), (drop_ge ks1), zip_with_nil_r, app_nil_r by lia.
    rewrite drop_app_le by lia. rewrite <- !app_assoc. reflexivity.
  - destruct Hi as (Hb1 & Hc1 & _ & Hf & _). specialize (Hf eq_refl).
    rewrite (XORKeyStream_stream c1) by assumption.
    destruct (stream (length d2) c1) as [[ks2 c2] ex2].
    rewrite zip_with_app by lia.
    rewrite length_app, Hf, drop_app_add, drop_all, app_nil_r, <- app_assoc.
    reflexivity.
Qed.

Lemma XORKeyStream_chunks_witness :
  let c := zero_Cipher in
  buffer_ok c /\ cursor_ok c
  /\ length [0] = length [5] /\ (length [0; 0] <= length [6; 7; 8])%nat
  /\ XORKeyStream c ([0] ++ [0; 0]) ([5] ++ [6; 7; 8]) =
     let '(c1, o1, r1) := XORKeyStream c [0] [5] in
     match r1 with
     | Done _ =>
       let '(c2, o2, r2) := XORKeyStream c1 [0; 0] [6; 7; 8] in (c2, o1 ++ o2, r2)
     | Panicked x => (c1, o1 ++ [0; 0], Panicked x)
     end.
Proof.
  intros c.
  assert (Hb : buffer_ok c) by reflexivity.
  assert (Hc : cursor_ok c) by (unfold cursor_ok, output_len; cbn; lia).
  assert (H1 : length [0] = length [5]) by reflexivity.
  assert (H2 : (length [0; 0] <= length [6; 7; 8])%nat) by (cbn; lia).
  exact (conj Hb (conj Hc (conj H1 (conj H2
           (XORKeyStream_chunks c [0] [0; 0] [5] [6; 7; 8] Hb Hc H1 H2))))).
Defined.

(** ** Seeking, in closed form *)

Section SeekForm.

Lemma seek_words_bump (inp : list Z) (n : Z) :
  bump (seek_words inp n) = seek_words inp (next_ctr (seek_words inp n)).
Proof.
  unfold bump. generalize (next_ctr (seek_words inp n)). intros m.
  unfold seek_words.
  rewrite (list_insert_insert_ne _ 12 13) by lia.
  rewrite !list_insert_insert_eq. reflexivity.
Qed.

Lemma length_seek_words (inp : list Z) (n : Z) :
  length (seek_words inp n) = length inp.
Proof. unfold seek_words. rewrite !length_insert. reflexivity. Qed.

Lemma seek_words_lookup (inp : list Z) (n : Z) :
  length inp = 16%nat ->
  seek_words inp n !!! 12%nat = U32.wrap n
  /\ seek_words inp n !!! 13%nat = U32.wrap (Z.shiftr n 32).
Proof.
  intros Hl. unfold seek_words. split.
  - rewrite list_lookup_total_insert_ne by lia.
    apply list_lookup_total_insert_eq. lia.
  - apply list_lookup_total_insert_eq. rewrite length_insert. lia.
Qed.

Lemma seek_words_counter (inp : list Z) (n : Z) :
  length inp = 16%nat -> 0 <= n < 2 ^ 64 ->
  Z.lor (Z.shiftl (seek_words inp n !!! 13%nat) 32) (seek_words inp n !!! 12%nat) = n.
Proof.
  intros Hl Hn. destruct (seek_words_lookup inp n Hl) as [-> ->].
  apply split_value, Hn.
Qed.

Lemma seek_words_next_ctr (inp : list Z) (n : Z) :
  length inp = 16%nat -> 0 <= n < 2 ^ 64 ->
  next_ctr (seek_words inp n) = (n + 1) mod 2 ^ 64.
Proof.
  intros Hl Hn. unfold next_ctr, wrap64.
  pose proof (seek_words_counter inp n Hl Hn) as Hc.
  destruct (seek_words_lookup inp n Hl) as [H12 H13].
  rewrite H12, H13 in *.
  rewrite (Z.mod_small (Z.shiftl _ 32)); [rewrite Hc; reflexivity|].
  pose proof (wrap_in_range (Z.shiftr n 32)) as Hr.
  unfold U32.in_range, U32.modulus in Hr.
  rewrite Z.shiftl_mul_pow2 by lia. lia.
Qed.

(** The block function on a state whose counter is [m]. *)
Lemma next_at (inp out : list Z) (nb r m : Z) :
  length inp = 16%nat -> length out = 64%nat -> 0 <= m < 2 ^ 64 ->
  next {| input := seek_words inp m; output := out; nextByte := nb;
          rounds := r; eof := false |}
  = ({| input := seek_words inp ((m + 1) mod 2 ^ 64);
        output := block (seek_words inp m) r;
        nextByte := 0; rounds := r;
        eof := (m =? max_uint64) |}, None).
Proof.
  intros Hl Ho Hm.
  rewrite next_shape by (cbn; rewrite ?length_seek_words; auto).
  cbn [input output rounds].
  rewrite seek_words_bump, seek_words_next_ctr by assumption.
  do 3 f_equal. unfold max_uint64.
  destruct (Z.eqb_spec m (2 ^ 64 - 1)) as [->|Hne]; [reflexivity|].
  rewrite Z.mod_small by lia.
  destruct (Z.eqb_spec (m + 1) 0); [lia|reflexivity].
Qed.

Lemma Seek_form (c : Cipher) (n : Z) :
  length (input c) = 16%nat -> length (output c) = 64%nat -> 0 <= n < 2 ^ 64 ->
  Seek c n =
    {| input := seek_words (input c) ((n + 1) mod 2 ^ 64);
       output := block (seek_words (input c) n) (rounds c);
       nextByte := 0; rounds := rounds c;
       eof := (n =? max_uint64) |}.
Proof.
  intros Hl Ho Hn. unfold Seek.
  change (set_eof (set_input (set_input c 12 (U32.wrap n)) 13
                     (U32.wrap (Z.shiftr n 32))) false)
    with {| input := seek_words (input c) n; output := output c;
            nextByte := nextByte c; rounds := rounds c; eof := false |}.
  rewrite next_at by assumption. reflexivity.
Qed.

End SeekForm.

(** X6.  [Seek(n)] in closed form: the buffer holds the block of counter
    [n], the cursor is at its start, the counter reads [n + 1] (wrapped),
    the exhausted flag is set exactly for the last index [2^64 - 1], every
    word other than the two counter words is left alone, and
    [64 * (2^64 - n)] keystream bytes remain. *)
Theorem Seek_closed_form (c : Cipher) (n : Z) :
  length (input c) = 16%nat -> length (output c) = 64%nat -> 0 <= n < 2 ^ 64 ->
  Seek c n =
    {| input := seek_words (input c) ((n + 1) mod 2 ^ 64);
       output := block (seek_words (input c) n) (rounds c);
       nextByte := 0; rounds := rounds c;
       eof := (n =? max_uint64) |}
  /\ counter (Seek c n) = (n + 1) mod 2 ^ 64
  /\ remaining (Seek c n) = 64 * (2 ^ 64 - n)
  /\ (forall i : nat, i <> 12%nat -> i <> 13%nat ->
      input (Seek c n) !! i = input c !! i).
Proof.
  intros Hl Ho Hn.
  pose proof (Seek_form c n Hl Ho Hn) as Hf.
  assert (Hm : 0 <= (n + 1) mod 2 ^ 64 < 2 ^ 64) by (apply Z.mod_pos_bound; lia).
  assert (Hc : counter (Seek c n) = (n + 1) mod 2 ^ 64).
  { rewrite Hf. unfold counter. cbn [input].
    apply seek_words_counter; assumption. }
  split; [exact Hf|]. split; [exact Hc|]. split.
  - unfold remaining. rewrite Hc. rewrite Hf. cbn [nextByte eof].
    unfold max_uint64, output_len.
    destruct (Z.eqb_spec n (2 ^ 64 - 1)) as [->|Hne]; [reflexivity|].
    rewrite Z.mod_small by lia. lia.
  - intros i H12 H13. rewrite Hf. cbn [input]. unfold seek_words.
    rewrite !list_lookup_insert_ne by congruence. reflexivity.
Qed.

Lemma Seek_closed_form_witness :
  let c := initial zero_key zero_iv 20 in
  length (input c) = 16%nat /\ length (output c) = 64%nat /\ 0 <= 5 < 2 ^ 64
  /\ counter (Seek c 5) = (5 + 1) mod 2 ^ 64
  /\ remaining (Seek c 5) = 64 * (2 ^ 64 - 5).
Proof.
  intros c.
  assert (Hl : length (input c) = 16%nat) by reflexivity.
  assert (Ho : length (output c) = 64%nat) by reflexivity.
  assert (Hn : 0 <= 5 < 2 ^ 64) by lia.
  destruct (Seek_closed_form c 5 Hl Ho Hn) as (_ & H1 & H2 & _).
  exact (conj Hl (conj Ho (conj Hn (conj H1 H2)))).
Defined.

(** X7.  Reading on past the end of block [n] continues with block
    [n + 1]: a [Read] of more than 64 bytes after [Seek(n)] returns the
    block of [n] followed by what a [Read] after [Seek(n + 1)] returns, and
    leaves the cipher as that [Read] does. *)
Theorem Read_across_blocks (c : Cipher) (n : Z) (p1 p2 : list Z) :
  length (input c) = 16%nat -> length (output c) = 64%nat ->
  0 <= n -> n + 1 < 2 ^ 64 ->
  length p1 = 64%nat -> p2 <> [] ->
  Read (Seek c n) (p1 ++ p2) =
    let '(c2, q2, r2) := Read (Seek c (n + 1)) p2 in
    (c2, output (Seek c n) ++ q2,
     match r2 with
     | Done (m, e) => Done (64 + m, e)
     | Panicked x => Panicked x
     end).
Proof.
  intros Hl Ho Hn0 Hn1 Hp1 Hp2.
  pose proof (Seek_form c n Hl Ho ltac:(lia)) as Hf.
  pose proof (Seek_form c (n + 1) Hl Ho ltac:(lia)) as Hf1.
  assert (Hlb : length (block (seek_words (input c) n) (rounds c)) = 64%nat)
    by (apply length_block; rewrite length_seek_words; exact Hl).
  assert (Hb : buffer_ok (Seek c n)) by (rewrite Hf; exact Hlb).
  assert (Hc : cursor_ok (Seek c n))
    by (rewrite Hf; unfold cursor_ok, output_len; cbn; lia).
  assert (Hnb : nextByte (Seek c n) = 0) by (rewrite Hf; reflexivity).
  assert (He : eof (Seek c n) = false).
  { rewrite Hf. cbn [eof]. unfold max_uint64. apply Z.eqb_neq. lia. }
  rewrite (Read_split (Seek c n) (p1 ++ p2) 64 Hb Hc)
    by (rewrite length_app; lia).
  rewrite take_app_length', drop_app_length' by (symmetry; exact Hp1).
  rewrite (Read_drain (Seek c n) p1)
    by (rewrite ?Hnb, ?Hp1; unfold output_len; (exact Hb || lia)).
  rewrite Hnb, Hp1.
  change (0 + Z.of_nat 64) with 64. change (Z.to_nat 0) with 0%nat.
  change (Z.of_nat 64) with 64. cbn [drop].
  rewrite (take_ge (output (Seek c n))) by (unfold buffer_ok in Hb; lia).
  assert (Hnext : (next (set_nextByte (Seek c n) 64)).1 = Seek c (n + 1)).
  { rewrite Hf1, Hf. unfold set_nextByte. cbn [input output rounds eof nextByte].
    replace (n =? max_uint64) with false
      by (symmetry; apply Z.eqb_neq; unfold max_uint64; lia).
    rewrite (Z.mod_small (n + 1)) by lia.
    rewrite next_at by (assumption || lia). reflexivity. }
  rewrite (Read_regenerate (set_nextByte (Seek c n) 64) p2);
    [|exact Hb|reflexivity|exact He|exact Hp2].
  rewrite Hnext.
  destruct (Read (Seek c (n + 1)) p2) as [[c2 q2] [[m e]|x]]; reflexivity.
Qed.

Lemma Read_across_blocks_witness :
  let c := initial zero_key zero_iv 20 in
  length (input c) = 16%nat /\ length (output c) = 64%nat
  /\ 0 <= 3 /\ 3 + 1 < 2 ^ 64
  /\ length (replicate 64 0) = 64%nat /\ [0; 0] <> @nil Z
  /\ Read (Seek c 3) (replicate 64 0 ++ [0; 0]) =
     let '(c2, q2, r2) := Read (Seek c (3 + 1)) [0; 0] in
     (c2, output (Seek c 3) ++ q2,
      match r2 with
      | Done (m, e) => Done (64 + m, e)
      | Panicked x => Panicked x
      end).
Proof.
  intros c.
  assert (Hl : length (input c) = 16%nat) by reflexivity.
  assert (Ho : length (output c) = 64%nat) by reflexivity.
  assert (H0 : 0 <= 3) by lia.
  assert (H1 : 3 + 1 < 2 ^ 64) by lia.
  assert (Hp : length (replicate 64 0) = 64%nat) by reflexivity.
  assert (Hne : [0; 0] <> @nil Z) by discriminate.
  exact (conj Hl (conj Ho (conj H0 (conj H1 (conj Hp (conj Hne
           (Read_across_blocks c 3 (replicate 64 0) [0; 0] Hl Ho H0 H1 Hp Hne))))))).
Defined.

(** ** What a history of calls cannot change *)

(** X8.  No call changes the constants, the key words, the nonce words
    or the round count: after any history of [Read], [XORKeyStream] and
    [Seek] calls every state word except the two counter words, and the
    field [rounds], are what they were. *)
Theorem key_words_never_change (c : Cipher) (history : list call) :
  length (input c) = 16%nat -> length (output c) = 64%nat ->
  rounds (run c history).1 = rounds c
  /\ length (input (run c history).1) = 16%nat
  /\ length (output (run c history).1) = 64%nat
  /\ (forall i : nat, i <> 12%nat -> i <> 13%nat ->
      input (run c history).1 !! i = input c !! i).
Proof.
  intros Hl Ho.
  assert (H : same_key c c) by (repeat split; assumption).
  destruct (same_key_run c c history H) as (Hr & Ho' & Hl' & Hk).
  auto.
Qed.

Lemma key_words_never_change_witness :
  let c := initial zero_key zero_iv 20 in
  let history := [CallSeek 9; CallRead [0; 0]; CallXORKeyStream [0] []] in
  length (input c) = 16%nat /\ length (output c) = 64%nat
  /\ rounds (run c history).1 = rounds c.
Proof.
  intros c history.
  assert (Hl : length (input c) = 16%nat) by reflexivity.
  assert (Ho : length (output c) = 64%nat) by reflexivity.
  exact (conj Hl (conj Ho (proj1 (key_words_never_change c history Hl Ho)))).
Defined.

Section Reachable.

Lemma words_ok_refill (c : Cipher) : words_ok c -> words_ok (refill c).1.
Proof.
  intros H. unfold refill.
  destruct (nextByte c >=? output_len); [apply next_words_ok, H|exact H].
Qed.

Lemma words_ok_Read_loop (todo : nat) (c : Cipher) (p : list Z) (i : nat) :
  words_ok c -> words_ok (Read_loop todo c p i).1.1.
Proof.
  revert c p i. induction todo as [|todo IH]; intros c p i H; cbn [Read_loop].
  - exact H.
  - pose proof (words_ok_refill c H) as H1.
    destruct (refill c) as [c1 [e|]]; [exact H1|].
    destruct (index (output c1) (nextByte c1)); [|exact H1].
    apply IH. exact H1.
Qed.

Lemma words_ok_XORKeyStream_loop (todo : nat) (c : Cipher) (dst src : list Z) (i : nat) :
  words_ok c -> words_ok (XORKeyStream_loop todo c dst src i).1.1.
Proof.
  revert c dst i. induction todo as [|todo IH]; intros c dst i H;
    cbn [XORKeyStream_loop].
  - exact H.
  - pose proof (words_ok_refill c H) as H1.
    destruct (refill c) as [c1 [e|]]; [exact H1|].
    destruct (index src (Z.of_nat i)); [|exact H1].
    destruct (index (output c1) (nextByte c1)); [|exact H1].
    apply IH. exact H1.
Qed.

Lemma words_ok_Seek (c : Cipher) (n : Z) : words_ok c -> words_ok (Seek c n).
Proof.
  intros [Hl Hr]. unfold Seek. apply next_words_ok.
  split; cbn [set_eof set_input input].
  - rewrite !length_insert. exact Hl.
  - apply Forall_insert; [apply Forall_insert; [exact Hr|]|]; apply wrap_in_range.
Qed.

Lemma wf_perform (c : Cipher) (k : call) : wf c -> wf (perform c k).1.
Proof.
  intros (Hw & Hb & Hc). destruct k as [p|dst src|n]; cbn [perform].
  - pose proof (words_ok_Read_loop (length p) c p 0 Hw) as H1.
    pose proof (Read_loop_inv (length p) c p 0 Hb Hc) as [H2 H3].
    unfold Read. destruct (Read_loop _ _ _ _) as [[c1 p1] r1].
    split; [exact H1|]. split; [exact H2|exact H3].
  - pose proof (words_ok_XORKeyStream_loop (length dst) c dst src 0 Hw) as H1.
    pose proof (XORKeyStream_loop_inv (length dst) c dst src 0 Hb Hc) as [H2 H3].
    unfold XORKeyStream. destruct (XORKeyStream_loop _ _ _ _ _) as [[c1 d1] r1].
    split; [exact H1|]. split; [exact H2|exact H3].
  - cbn [fst]. split; [apply words_ok_Seek, Hw|]. unfold Seek. split.
    + unfold buffer_ok. rewrite next_output_length. exact Hb.
    + unfold cursor_ok, output_len. rewrite next_nextByte by reflexivity. lia.
Qed.

Lemma wf_run (c : Cipher) (ks : list call) : wf c -> wf (run c ks).1.
Proof.
  revert c. induction ks as [|k ks IH]; intros c H; cbn [run]; [exact H|].
  pose proof (wf_perform c k H) as H1.
  destruct (perform c k) as [c1 o].
  specialize (IH c1 H1). destruct (run c1 ks) as [c2 os]. exact IH.
Qed.

End Reachable.

(** X9.  Every state a cipher can reach is well formed: constructed from
    a key and a nonce of bytes, and taken through any history of calls,
    it has sixteen words below [2^32], a 64-byte buffer and a cursor in
    [0, 64]. *)
Theorem reachable_states_wf
        (key iv : list Z) (r : Z) (c0 : Cipher) (history : list call) :
  Forall is_byte key -> Forall is_byte iv ->
  New key iv r = Done c0 ->
  wf c0 /\ wf (run c0 history).1.
Proof.
  intros Hk Hi H. apply New_returns in H as (-> & Lk & Li).
  assert (Hwf : wf (initial key iv r)) by (apply initial_wf; assumption).
  split; [exact Hwf|apply wf_run, Hwf].
Qed.

Lemma reachable_states_wf_witness :
  let history := [CallRead [0; 0; 0]; CallSeek 7; CallXORKeyStream [1] [2]] in
  Forall is_byte zero_key /\ Forall is_byte zero_iv
  /\ New zero_key zero_iv 20 = Done (initial zero_key zero_iv 20)
  /\ wf (run (initial zero_key zero_iv 20) history).1.
Proof.
  intros history.
  assert (H : New zero_key zero_iv 20 = Done (initial zero_key zero_iv 20)) by reflexivity.
  exact (conj zero_key_bytes (conj zero_iv_bytes (conj H
           (proj2 (reachable_states_wf zero_key zero_iv 20 _ history
                     zero_key_bytes zero_iv_bytes H))))).
Defined.

(** ** After exhaustion *)

Section Exhausted.

Lemma set_nextByte_twice (c : Cipher) (u v : Z) :
  set_nextByte (set_nextByte c u) v = set_nextByte c v.
Proof. reflexivity. Qed.

Lemma Read_loop_exhausted (todo : nat) (c : Cipher) (p : list Z) (i : nat) :
  buffer_ok c -> cursor_ok c -> eof c = true ->
  exists v, nextByte c <= v <= output_len
            /\ (Read_loop todo c p i).1.1 = set_nextByte c v.
Proof.
  revert c p i. induction todo as [|todo IH]; intros c p i Hb Hc He;
    cbn [Read_loop].
  - exists (nextByte c). unfold cursor_ok in Hc.
    split; [lia|]. symmetry. apply set_nextByte_same.
  - destruct (Z_lt_le_dec (nextByte c) output_len) as [Hlt|Hge].
    + rewrite refill_within by exact Hlt.
      rewrite index_output by (assumption || (unfold cursor_ok in Hc; lia)).
      destruct (served_ok c Hb ltac:(unfold cursor_ok in Hc; lia)) as [Hb2 Hc2].
      destruct (IH (set_nextByte c (nextByte c + 1)) (<[i:=output c !!! Z.to_nat (nextByte c)]> p)
                   (S i) Hb2 Hc2 He) as (v & Hv & Hr).
      exists v. cbn [set_nextByte nextByte] in Hv. split; [lia|].
      rewrite Hr. apply set_nextByte_twice.
    + rewrite refill_exhausted by assumption.
      exists (nextByte c). unfold cursor_ok in Hc.
      split; [lia|]. symmetry. apply set_nextByte_same.
Qed.

Lemma XORKeyStream_loop_exhausted (todo : nat) (c : Cipher) (dst src : list Z) (i : nat) :
  buffer_ok c -> cursor_ok c -> eof c = true ->
  exists v, nextByte c <= v <= output_len
            /\ (XORKeyStream_loop todo c dst src i).1.1 = set_nextByte c v.
Proof.
  revert c dst i. induction todo as [|todo IH]; intros c dst i Hb Hc He;
    cbn [XORKeyStream_loop].
  - exists (nextByte c). unfold cursor_ok in Hc.
    split; [lia|]. symmetry. apply set_nextByte_same.
  - destruct (Z_lt_le_dec (nextByte c) output_len) as [Hlt|Hge].
    + rewrite refill_within by exact Hlt.
      destruct (index src (Z.of_nat i)) as [s|x].
      * rewrite index_output by (assumption || (unfold cursor_ok in Hc; lia)).
        destruct (served_ok c Hb ltac:(unfold cursor_ok in Hc; lia)) as [Hb2 Hc2].
        destruct (IH (set_nextByte c (nextByte c + 1))
                     (<[i:=Z.lxor s (output c !!! Z.to_nat (nextByte c))]> dst)
                     (S i) Hb2 Hc2 He) as (v & Hv & Hr).
        exists v. cbn [set_nextByte nextByte] in Hv. split; [lia|].
        rewrite Hr. apply set_nextByte_twice.
      * exists (nextByte c). unfold cursor_ok in Hc.
        split; [lia|]. symmetry. apply set_nextByte_same.
    + rewrite refill_exhausted by assumption.
      exists (nextByte c). unfold cursor_ok in Hc.
      split; [lia|]. symmetry. apply set_nextByte_same.
Qed.

End Exhausted.

(** X10.  Exhaustion is final short of a [Seek]: on a cipher whose
    exhausted flag is set [next] fails and changes nothing, and [Read] and
    [XORKeyStream] move the cursor forward at most to 64 and change
    nothing else, neither words, counter, buffer nor flag; a [Seek] to any
    index but the last clears the flag. *)
Theorem exhaustion_is_final (c : Cipher) (p dst src : list Z) (n : Z) :
  buffer_ok c -> cursor_ok c -> length (input c) = 16%nat -> eof c = true ->
  next c = (c, Some ErrExhaustedKeystream)
  /\ (exists v, nextByte c <= v <= output_len /\ (Read c p).1.1 = set_nextByte c v)
  /\ (exists v, nextByte c <= v <= output_len
                /\ (XORKeyStream c dst src).1.1 = set_nextByte c v)
  /\ (0 <= n < max_uint64 -> eof (Seek c n) = false).
Proof.
  intros Hb Hc Hl He.
  split; [apply next_exhausted, He|].
  split; [apply Read_loop_exhausted; assumption|].
  split; [apply XORKeyStream_loop_exhausted; assumption|].
  intros Hn. unfold max_uint64 in Hn.
  rewrite Seek_form by (assumption || lia). cbn [eof].
  apply Z.eqb_neq. unfold max_uint64. lia.
Qed.

Lemma exhaustion_is_final_witness :
  let c := exhausted_cipher in
  buffer_ok c /\ cursor_ok c /\ length (input c) = 16%nat /\ eof c = true
  /\ next c = (c, Some ErrExhaustedKeystream)
  /\ (0 <= 4 < max_uint64 -> eof (Seek c 4) = false).
Proof.
  intros c.
  assert (Hb : buffer_ok c) by reflexivity.
  assert (Hc : cursor_ok c) by (unfold cursor_ok, output_len; cbn; lia).
  assert (Hl : length (input c) = 16%nat) by reflexivity.
  assert (He : eof c = true) by reflexivity.
  destruct (exhaustion_is_final c [0] [0] [0] 4 Hb Hc Hl He) as (H1 & _ & _ & H2).
  exact (conj Hb (conj Hc (conj Hl (conj He (conj H1 H2))))).
Defined.

(** ** Words and bytes *)

(** X11.  The expression [(t << n) | (t >> (32 - n))] of the loop body
    rotates a 32-bit word to the left by [n]: the result is again a
    32-bit word, and its bit [(i + n) mod 32] is bit [i] of [t]. *)
Theorem shift_or_rotates (t n i : Z) :
  U32.in_range t -> 0 < n < 32 -> 0 <= i < 32 ->
  U32.in_range ((t <<! n) |! (t >>! (32 - n)))
  /\ Z.testbit ((t <<! n) |! (t >>! (32 - n))) ((i + n) mod 32) = Z.testbit t i.
Proof.
  intros Ht Hn Hi. split.
  - rewrite rotate_idiom by assumption. apply rotate_left_in_range; assumption.
  - rewrite rotate_idiom by assumption. apply rotate_left_bits; assumption.
Qed.

Lemma shift_or_rotates_witness :
  U32.in_range 0x80000001 /\ 0 < 7 < 32 /\ 0 <= 31 < 32
  /\ Z.testbit ((0x80000001 <<! 7) |! (0x80000001 >>! (32 - 7))) ((31 + 7) mod 32)
     = Z.testbit 0x80000001 31.
Proof.
  assert (Ht : U32.in_range 0x80000001) by (unfold U32.in_range, U32.modulus; lia).
  assert (Hn : 0 < 7 < 32) by lia.
  assert (Hi : 0 <= 31 < 32) by lia.
  exact (conj Ht (conj Hn (conj Hi (proj2 (shift_or_rotates 0x80000001 7 31 Ht Hn Hi))))).
Defined.

Section Endian.

Lemma shl_small (b k : Z) :
  is_byte b -> 0 <= k <= 24 -> b <<! k = b * 2 ^ k.
Proof.
  unfold is_byte, U32.shl, U32.wrap, U32.modulus. intros Hb Hk.
  rewrite Z.shiftl_mul_pow2 by lia. apply Z.mod_small.
  assert (0 < 2 ^ k) by (apply Z.pow_pos_nonneg; lia).
  assert (2 ^ k <= 2 ^ 24) by (apply Z.pow_le_mono_r; lia).
  nia.
Qed.

Lemma le32_sum (b0 b1 b2 b3 : Z) :
  is_byte b0 -> is_byte b1 -> is_byte b2 -> is_byte b3 ->
  b0 |! (b1 <<! 8) |! (b2 <<! 16) |! (b3 <<! 24)
  = b0 + b1 * 2 ^ 8 + b2 * 2 ^ 16 + b3 * 2 ^ 24.
Proof.
  intros H0 H1 H2 H3.
  rewrite !shl_small by (assumption || lia).
  unfold is_byte, U32.or in *.
  rewrite (Z.lor_comm b0), lor_disjoint by lia.
  rewrite (Z.lor_comm _ (b2 * 2 ^ 16)), lor_disjoint by lia.
  rewrite (Z.lor_comm _ (b3 * 2 ^ 24)), lor_disjoint by lia.
  lia.
Qed.

Lemma to_byte_is_byte (x : Z) : is_byte (to_byte x).
Proof. unfold is_byte, to_byte. apply Z.mod_pos_bound. lia. Qed.

Lemma bytes_of_word (w : Z) :
  U32.in_range w ->
  to_byte w + to_byte (w >>! 8) * 2 ^ 8 + to_byte (w >>! 16) * 2 ^ 16
  + to_byte (w >>! 24) * 2 ^ 24 = w.
Proof.
  unfold U32.in_range, U32.modulus, to_byte, U32.shr. intros Hw.
  rewrite !Z.shiftr_div_pow2 by lia.
  change (2 ^ 8) with 256. change (2 ^ 16) with 65536. change (2 ^ 24) with 16777216.
  change (2 ^ 32) with 4294967296 in Hw.
  Z.to_euclidean_division_equations. lia.
Qed.

Lemma word_of_bytes (b0 b1 b2 b3 : Z) :
  is_byte b0 -> is_byte b1 -> is_byte b2 -> is_byte b3 ->
  le_bytes (b0 + b1 * 2 ^ 8 + b2 * 2 ^ 16 + b3 * 2 ^ 24) = [b0; b1; b2; b3].
Proof.
  unfold is_byte, le_bytes, to_byte, U32.shr. intros H0 H1 H2 H3.
  rewrite !Z.shiftr_div_pow2 by lia.
  change (2 ^ 8) with 256. change (2 ^ 16) with 65536. change (2 ^ 24) with 16777216.
  repeat f_equal; Z.to_euclidean_division_equations; lia.
Qed.

End Endian.

(** X12.  The two library routines agree on the byte order: a word
    stored with [PutUint32] at an offset of a buffer is what [Uint32]
    reads back from there; the store keeps the length of the buffer and
    touches no byte outside its four. *)
Theorem PutUint32_Uint32 (out : list Z) (off : nat) (v : Z) :
  U32.in_range v -> (off + 4 <= length out)%nat ->
  (s ← slice_from (PutUint32 out off v) (Z.of_nat off); Uint32 s) = Done v
  /\ length (PutUint32 out off v) = length out
  /\ (forall j : nat, (j < off \/ off + 4 <= j)%nat ->
      PutUint32 out off v !! j = out !! j).
Proof.
  intros Hv Hl.
  assert (Hlen : length (PutUint32 out off v) = length out) by apply length_PutUint32.
  split; [|split; [exact Hlen|]].
  - rewrite read_word by lia. rewrite Nat2Z.id. f_equal.
    unfold le32, PutUint32.
    rewrite (list_lookup_total_insert_eq _ (off + 3)) by (rewrite !length_insert; lia).
    rewrite (list_lookup_total_insert_ne _ (off + 3) (off + 2)) by lia.
    rewrite (list_lookup_total_insert_eq _ (off + 2)) by (rewrite !length_insert; lia).
    rewrite (list_lookup_total_insert_ne _ (off + 3) (off + 1)) by lia.
    rewrite (list_lookup_total_insert_ne _ (off + 2) (off + 1)) by lia.
    rewrite (list_lookup_total_insert_eq _ (off + 1)) by (rewrite !length_insert; lia).
    rewrite (list_lookup_total_insert_ne _ (off + 3) off) by lia.
    rewrite (list_lookup_total_insert_ne _ (off + 2) off) by lia.
    rewrite (list_lookup_total_insert_ne _ (off + 1) off) by lia.
    rewrite (list_lookup_total_insert_eq _ off) by lia.
    rewrite le32_sum by apply to_byte_is_byte.
    apply bytes_of_word, Hv.
  - intros j Hj. unfold PutUint32.
    rewrite !list_lookup_insert_ne by lia. reflexivity.
Qed.

Lemma PutUint32_Uint32_witness :
  U32.in_range 0x01020304 /\ (4 + 4 <= length (replicate 12 0))%nat
  /\ (s ← slice_from (PutUint32 (replicate 12 0) 4 0x01020304) (Z.of_nat 4); Uint32 s)
     = Done 0x01020304.
Proof.
  assert (Hv : U32.in_range 0x01020304) by (unfold U32.in_range, U32.modulus; lia).
  assert (Hl : (4 + 4 <= length (replicate 12 0))%nat) by (cbn; lia).
  exact (conj Hv (conj Hl (proj1 (PutUint32_Uint32 (replicate 12 0) 4 0x01020304 Hv Hl)))).
Defined.

Section Loading.

Lemma le_bytes_le32 (b0 b1 b2 b3 : Z) :
  is_byte b0 -> is_byte b1 -> is_byte b2 -> is_byte b3 ->
  le_bytes (b0 |! (b1 <<! 8) |! (b2 <<! 16) |! (b3 <<! 24)) = [b0; b1; b2; b3].
Proof.
  intros H0 H1 H2 H3. rewrite le32_sum by assumption.
  apply word_of_bytes; assumption.
Qed.

Lemma bytes_of_words (bs : list Z) (n : nat) :
  Forall is_byte bs -> length bs = (4 * n)%nat ->
  mjoin (le_bytes <$> ((fun i => le32 bs (4 * i)) <$> seq 0 n)) = bs.
Proof.
  revert bs. induction n as [|n IH] using nat_ind; intros bs Hb Hl.
  - destruct bs; [reflexivity|discriminate Hl].
  - replace (S n) with (n + 1)%nat by lia.
    rewrite seq_app, !fmap_app, join_app.
    transitivity (take (4 * n) bs ++ drop (4 * n) bs); [|apply take_drop].
    f_equal.
    + transitivity
        (mjoin (le_bytes <$> ((fun i => le32 (take (4 * n) bs) (4 * i)) <$> seq 0 n)));
        [|apply IH; [apply Forall_take, Hb|rewrite length_take; lia]].
      f_equal. f_equal. apply list_fmap_ext. intros j i Hi.
      apply lookup_seq in Hi as [-> Hlt]. cbn [Nat.add].
      unfold le32. rewrite !lookup_total_take_lt by lia. reflexivity.
    + cbn [seq fmap list_fmap mjoin list_join Nat.add]. rewrite app_nil_r.
      assert (Hd : length (drop (4 * n) bs) = 4%nat) by (rewrite length_drop; lia).
      assert (Hf : Forall is_byte (drop (4 * n) bs)) by (apply Forall_drop, Hb).
      unfold le32. rewrite <- !lookup_total_drop.
      replace (bs !!! (4 * n)%nat) with (drop (4 * n) bs !!! 0%nat)
        by (rewrite lookup_total_drop, Nat.add_0_r; reflexivity).
      destruct (drop (4 * n) bs) as [|b0 [|b1 [|b2 [|b3 [|]]]]]; try discriminate Hd.
      repeat match type of Hf with
             | Forall _ (_ :: _) => apply Forall_cons in Hf as [? Hf]
             end.
      apply le_bytes_le32; assumption.
Qed.

End Loading.

(** X13.  [New] loads the key and the nonce without loss: the cipher it
    returns holds the four constants, then words which, written out
    little-endian, are the first 32 bytes of the key, then a zero
    counter, then words which are the first 8 bytes of the nonce; the
    cursor is at 64, the exhausted flag clear and the round count as
    given. *)
Theorem New_loads_key
        (key iv : list Z) (r : Z) (c0 : Cipher) :
  Forall is_byte key -> Forall is_byte iv ->
  New key iv r = Done c0 ->
  take 4 (input c0) = [0x61707865; 0x3320646e; 0x79622d32; 0x6b206574]
  /\ mjoin (le_bytes <$> take 8 (drop 4 (input c0))) = take 32 key
  /\ take 2 (drop 12 (input c0)) = [0; 0]
  /\ mjoin (le_bytes <$> drop 14 (input c0)) = take 8 iv
  /\ nextByte c0 = 64 /\ eof c0 = false /\ rounds c0 = r.
Proof.
  intros Hk Hi H. apply New_returns in H as (-> & Lk & Li).
  split; [reflexivity|]. split.
  - rewrite <- (bytes_of_words (take 32 key) 8);
      [|apply Forall_take, Hk|rewrite length_take; lia].
    cbn [initial input drop take seq fmap list_fmap Nat.mul Nat.add].
    rewrite !le32_take by lia. reflexivity.
  - split; [reflexivity|]. split; [|repeat split].
    rewrite <- (bytes_of_words (take 8 iv) 2);
      [|apply Forall_take, Hi|rewrite length_take; lia].
    cbn [initial input drop take seq fmap list_fmap Nat.mul Nat.add].
    rewrite !le32_take by lia. reflexivity.
Qed.

Lemma New_loads_key_witness :
  Forall is_byte zero_key /\ Forall is_byte zero_iv
  /\ New zero_key zero_iv 20 = Done (initial zero_key zero_iv 20)
  /\ mjoin (le_bytes <$> take 8 (drop 4 (input (initial zero_key zero_iv 20))))
     = take 32 zero_key.
Proof.
  assert (H : New zero_key zero_iv 20 = Done (initial zero_key zero_iv 20)) by reflexivity.
  exact (conj zero_key_bytes (conj zero_iv_bytes (conj H
           (proj1 (proj2 (New_loads_key zero_key zero_iv 20 _
                            zero_key_bytes zero_iv_bytes H)))))).
Defined.

(** X14.  Seeking and reading meet the reference algorithm: for an even
    positive round count, the 64 bytes read after [Seek(n)] are the
    reference block of the state whose counter words hold [n]. *)
Theorem Seek_Read_reference (c : Cipher) (n : Z) (p : list Z) :
  words_ok c -> buffer_ok c -> 0 <= n < 2 ^ 64 ->
  0 < rounds c -> Z.even (rounds c) = true ->
  length p = 64%nat ->
  (Read (Seek c n) p).1.2 = Ref.block (seek_words (input c) n) (rounds c)
  /\ (Read (Seek c n) p).2 = Done (64, None).
Proof.
  intros [Hl Hr] Hb Hn Hpos Hev Hp.
  pose proof (Seek_form c n Hl Hb Hn) as Hf.
  assert (Hlb : length (block (seek_words (input c) n) (rounds c)) = 64%nat)
    by (apply length_block; rewrite length_seek_words; exact Hl).
  rewrite Read_drain; rewrite Hf; cbn [nextByte output];
    [|exact Hlb|lia|rewrite Hp; unfold output_len; lia].
  cbn [fst snd]. rewrite Hp. change (Z.to_nat 0) with 0%nat.
  rewrite drop_0, take_ge by lia.
  split; [|reflexivity].
  apply block_ref; [rewrite length_seek_words; exact Hl| |exact Hpos|exact Hev].
  unfold seek_words.
  apply Forall_insert; [apply Forall_insert; [exact Hr|]|]; apply wrap_in_range.
Qed.

Lemma Seek_Read_reference_witness :
  let c := initial zero_key zero_iv 20 in
  words_ok c /\ buffer_ok c /\ 0 <= 11 < 2 ^ 64 /\ 0 < rounds c
  /\ Z.even (rounds c) = true /\ length (replicate 64 0) = 64%nat
  /\ (Read (Seek c 11) (replicate 64 0)).1.2
     = Ref.block (seek_words (input c) 11) (rounds c).
Proof.
  intros c.
  assert (Hw : words_ok c) by apply (zero_initial_wf 20).
  assert (Hb : buffer_ok c) by reflexivity.
  assert (Hn : 0 <= 11 < 2 ^ 64) by lia.
  assert (Hr : 0 < rounds c) by (cbn; lia).
  assert (He : Z.even (rounds c) = true) by reflexivity.
  assert (Hp : length (replicate 64 0) = 64%nat) by reflexivity.
  exact (conj Hw (conj Hb (conj Hn (conj Hr (conj He (conj Hp
           (proj1 (Seek_Read_reference c 11 (replicate 64 0) Hw Hb Hn Hr He Hp)))))))).
Defined.
